(** * httpio.Unmarshal: the request decoder of pechorka/cruder

    A shallow embedding of [pkg/httpio]: [Unmarshal], [decode], [findInTag],
    [getValue], [setField] and the name-path helpers, together with the parts
    of [reflect], [strconv] and [net/http] they rely on. *)

From Stdlib Require Import ZArith Lia Ascii String.
From stdpp Require Import base option list gmap strings.

Local Open Scope string_scope.
Local Open Scope list_scope.
Local Open Scope Z_scope.
Local Set Warnings "-register-all".

(** ** Go data *)

(** [[]byte] is a list of characters, [string] an immutable one; the two
    unsafe casts of the source only change the view. *)
Definition bytes := list ascii.

Definition stringBytes (s : string) : bytes := list_ascii_of_string s.
Definition bytesString (b : bytes) : string := string_of_list_ascii b.

Definition delimiter : ascii := "."%char.

(** [reflect.Kind]. *)
Module reflect.
Inductive Kind :=
  | Invalid | Bool
  | Int | Int8 | Int16 | Int32 | Int64
  | Uint | Uint8 | Uint16 | Uint32 | Uint64 | Uintptr
  | Float32 | Float64 | Complex64 | Complex128
  | Array | Chan | Func | Interface | Map | Pointer | Slice
  | String | Struct | UnsafePointer.
End reflect.

#[global] Instance Kind_eq_dec : EqDecision reflect.Kind.
Proof. solve_decision. Defined.

Inductive intKind := KInt | KInt8 | KInt16 | KInt32 | KInt64.
Inductive uintKind := KUint | KUint8 | KUint16 | KUint32 | KUint64 | KUintptr.
Inductive floatKind := KFloat32 | KFloat64.

(** [reflect.StructField], without its type: the type of a member is that of
    the value stored in it. [Tag] is the struct tag already split into its
    key:"value" pairs, in the order they are written. *)
Record StructField := mkStructField {
  Name : string;
  PkgPath : string;
  Anonymous : bool;
  Tag : list (string * string)
}.

(** A field is exported exactly when [PkgPath] is empty. *)
Definition IsExported (f : StructField) : bool := bool_decide (PkgPath f = "").

(** Values reachable from a destination. Integers are kept as [Z] inside the
    range of their kind; a float is kept as the bit pattern of a float64.
    A pointer is its nil flag together with its pointee; a nil pointer carries
    the zero value of its element type, which is the object
    [reflect.New(t.Elem())] allocates when the pointer is set. [VOther] stands
    for every kind the decoder does not look into (slices, maps, ...).
    A value is a tree: each pointer has a pointee of its own, and two members
    that point at the same storage have no counterpart here. *)
Inductive Value :=
  | VBool (b : bool)
  | VInt (k : intKind) (n : Z)
  | VUint (k : uintKind) (n : Z)
  | VFloat (k : floatKind) (bits : Z)
  | VString (s : string)
  | VPtr (isNil : bool) (elem : Value)
  | VStruct (fields : list (StructField * Value))
  | VOther (k : reflect.Kind).

Definition Kind_of (v : Value) : reflect.Kind :=
  match v with
  | VBool _ => reflect.Bool
  | VInt KInt _ => reflect.Int
  | VInt KInt8 _ => reflect.Int8
  | VInt KInt16 _ => reflect.Int16
  | VInt KInt32 _ => reflect.Int32
  | VInt KInt64 _ => reflect.Int64
  | VUint KUint _ => reflect.Uint
  | VUint KUint8 _ => reflect.Uint8
  | VUint KUint16 _ => reflect.Uint16
  | VUint KUint32 _ => reflect.Uint32
  | VUint KUint64 _ => reflect.Uint64
  | VUint KUintptr _ => reflect.Uintptr
  | VFloat KFloat32 _ => reflect.Float32
  | VFloat KFloat64 _ => reflect.Float64
  | VString _ => reflect.String
  | VPtr _ _ => reflect.Pointer
  | VStruct _ => reflect.Struct
  | VOther k => k
  end.

(** Width in bits of the integer kinds ([int] and [uint] on a 64-bit
    platform). *)
Definition intBits (k : intKind) : Z :=
  match k with KInt => 64 | KInt8 => 8 | KInt16 => 16 | KInt32 => 32 | KInt64 => 64 end.

Definition uintBits (k : uintKind) : Z :=
  match k with
  | KUint => 64 | KUint8 => 8 | KUint16 => 16 | KUint32 => 32 | KUint64 => 64
  | KUintptr => 64
  end.

(** Go's integer conversions [intN(x)] and [uintN(x)]: the low [w] bits. *)
Definition wrapUnsigned (w x : Z) : Z := x mod 2 ^ w.
Definition wrapSigned (w x : Z) : Z := (x + 2 ^ (w - 1)) mod 2 ^ w - 2 ^ (w - 1).

(** ** Errors and panics *)

Inductive numErr := ErrSyntax | ErrRange.

(** [strconv.NumError]. *)
Record NumError := mkNumError { Func : string; Num : string; Err : numErr }.

Inductive error :=
  | InvalidDestination             (* "destination must be a non-nil pointer" *)
  | UnsupportedType (k : reflect.Kind)    (* "unsupported type: <kind>" *)
  | InvalidNumber (e : NumError)   (* the error of strconv, returned as it is *)
  | BodyDecodeError (msg : string) (* the error of the JSON decoder *).

Inductive panic :=
  | PanicNotAssignable   (* reflect: Set on a value obtained through an unexported field *)
  | PanicSliceBounds     (* slice bounds out of range *).

(** A Go call either returns or panics. *)
Inductive result (A : Type) :=
  | Return (a : A)
  | Panics (p : panic).
Arguments Return {A} a.
Arguments Panics {A} p.

#[global] Instance result_ret : MRet result := fun A a => Return a.
#[global] Instance result_bind : MBind result := fun A B k m =>
  match m with
  | Return a => k a
  | Panics p => Panics p
  end.

(** ** reflect: which values may be set *)

(** The read-only bits of a [reflect.Value]'s flag. *)
Inductive flagRO := flagRW | flagEmbedRO | flagStickyRO.

Definition assignable (fl : flagRO) : bool :=
  match fl with flagRW => true | _ => false end.

(** [Value.Field]: the sticky bit is inherited, and an unexported field adds
    its own bit. *)
Definition fieldFlag (fl : flagRO) (f : StructField) : flagRO :=
  match fl with
  | flagStickyRO => flagStickyRO
  | _ => if IsExported f then flagRW
         else if Anonymous f then flagEmbedRO else flagStickyRO
  end.

(** [Value.Elem] of a pointer keeps both bits. *)
Definition elemFlag (fl : flagRO) : flagRO := fl.

(** ** strconv *)

Definition isDigit (c : ascii) : bool :=
  let n := Z.of_N (N_of_ascii c) in (48 <=? n) && (n <=? 57).

Definition digitVal (c : ascii) : Z := Z.of_N (N_of_ascii c) - 48.

Definition maxUint64 : Z := 2 ^ 64 - 1.

(** The digit loop of [strconv.ParseUint(s, 10, 64)]: [n] is the number read
    so far. Any character that is not a decimal digit is a syntax error;
    overflow is reported where it happens, before the rest of the text is
    looked at. *)
Fixpoint parseDigits (cs : bytes) (n : Z) : Z + numErr :=
  match cs with
  | [] => inl n
  | c :: cs' =>
      if isDigit c then
        if maxUint64 / 10 + 1 <=? n then inr ErrRange
        else
          let n1 := n * 10 + digitVal c in
          if maxUint64 <? n1 then inr ErrRange else parseDigits cs' n1
      else inr ErrSyntax
  end.

Definition ParseUint (s : string) : Z * option NumError :=
  match stringBytes s with
  | [] => (0, Some (mkNumError "ParseUint" s ErrSyntax))
  | cs =>
      match parseDigits cs 0 with
      | inl n => (n, None)
      | inr ErrSyntax => (0, Some (mkNumError "ParseUint" s ErrSyntax))
      | inr ErrRange => (maxUint64, Some (mkNumError "ParseUint" s ErrRange))
      end
  end.

(** [strconv.ParseInt(s, 10, 64)]. *)
Definition ParseInt (s : string) : Z * option NumError :=
  match stringBytes s with
  | [] => (0, Some (mkNumError "ParseInt" s ErrSyntax))
  | c :: cs =>
      let neg := bool_decide (c = "-"%char) in
      let digits :=
        if bool_decide (c = "+"%char) || neg then cs else c :: cs in
      let '(un, err) := ParseUint (bytesString digits) in
      match err with
      | Some e =>
          match Err e with
          | ErrSyntax => (0, Some (mkNumError "ParseInt" s ErrSyntax))
          | ErrRange =>
              if neg then (- 2 ^ 63, Some (mkNumError "ParseInt" s ErrRange))
              else (2 ^ 63 - 1, Some (mkNumError "ParseInt" s ErrRange))
          end
      | None =>
          let cutoff := 2 ^ 63 in
          if negb neg && (cutoff <=? un) then
            (cutoff - 1, Some (mkNumError "ParseInt" s ErrRange))
          else if neg && (cutoff <? un) then
            (- cutoff, Some (mkNumError "ParseInt" s ErrRange))
          else (if neg then - un else un, None)
      end
  end.

(** ** net/http *)

(** [http.Cookie], the two members the decoder reads. *)
Record Cookie := mkCookie { Cookie_Name : string; Cookie_Value : string }.

(** [r.Body] is a stream: either nothing has been read from it yet, or a
    reader has been at it. *)
Inductive body :=
  | Unread (content : string)
  | ReadFrom.

(** [http.Request] as the decoder sees it: the header table, the table
    [r.URL.Query()] returns, the cookies of the Cookie header in the order
    they are sent, and the body. *)
Record Request := mkRequest {
  Header : gmap string (list string);
  URL_Query : gmap string (list string);
  Cookies : list Cookie;
  Body : body
}.

(** [r.Cookie(name)]: the first cookie of that name, [None] for
    [ErrNoCookie]. *)
Definition Request_Cookie (r : Request) (name : string) : option Cookie :=
  if bool_decide (name = "") then None
  else head (filter (fun c => Cookie_Name c = name) (Cookies r)).

(** ** The decoder *)

Inductive tagType :=
  | tagTypeNone
  | tagTypeQuery
  | tagTypePath
  | tagTypeHeader
  | tagTypeCookie.

(** [reflect.StructTag.Lookup]. *)
Fixpoint Tag_Lookup (tag : list (string * string)) (key : string) : option string :=
  match tag with
  | [] => None
  | (k, v) :: tag' => if bool_decide (k = key) then Some v else Tag_Lookup tag' key
  end.

(** [tag, ok := t.Tag.Lookup(key); ok && tag != ""]. *)
Definition nonEmptyTag (t : StructField) (key : string) : option string :=
  match Tag_Lookup (Tag t) key with
  | Some tag => if bool_decide (tag = "") then None else Some tag
  | None => None
  end.

Definition findInTag (t : StructField) : bytes * tagType * bool :=
  match nonEmptyTag t "query" with
  | Some tag => (stringBytes tag, tagTypeQuery, true)
  | None =>
  match nonEmptyTag t "path" with
  | Some tag => (stringBytes tag, tagTypePath, true)
  | None =>
  match nonEmptyTag t "header" with
  | Some tag => (stringBytes tag, tagTypeHeader, true)
  | None =>
  match nonEmptyTag t "cookie" with
  | Some tag => (stringBytes tag, tagTypeCookie, true)
  | None => ([], tagTypeNone, false)
  end end end end.

Definition appendWithDelimiter (prefix name : bytes) : bytes :=
  (prefix ++ name) ++ [delimiter].

(** [prefix[:len(prefix)-len(name)-1]]; a negative bound panics. *)
Definition popWithDelimiter (prefix name : bytes) : result bytes :=
  if (List.length prefix <? List.length name + 1)%nat then Panics PanicSliceBounds
  else Return (take (List.length prefix - List.length name - 1) prefix).

Record decodeIn := mkDecodeIn {
  r : Request;
  queryVals : option (gmap string (list string));
  parsedCookies : list Cookie
}.

Fixpoint findCookieVal (cookies : list Cookie) (name : string) : string * bool :=
  match cookies with
  | [] => ("", false)
  | cookie :: cookies' =>
      if bool_decide (Cookie_Name cookie = name) then (Cookie_Value cookie, true)
      else findCookieVal cookies' name
  end.

Definition defaultPathLookuper (r : Request) (name : string) : string * bool :=
  ("", false).

(** The four source annotations in the order [findInTag] asks for them. *)
Definition annotations : list (string * tagType) :=
  [("query", tagTypeQuery); ("path", tagTypePath);
   ("header", tagTypeHeader); ("cookie", tagTypeCookie)].

(** The priority rule in the spec's words: the first of the annotations that
    is present on the member. *)
Fixpoint firstPresent (t : StructField) (keys : list (string * tagType))
  : option (string * tagType) :=
  match keys with
  | [] => None
  | (key, ty) :: keys' =>
      match Tag_Lookup (Tag t) key with
      | Some tag => Some (tag, ty)
      | None => firstPresent t keys'
      end
  end.

(** The same rule over the annotations the source accepts, those whose value
    is not empty. *)
Fixpoint firstNonEmpty (t : StructField) (keys : list (string * tagType))
  : option (string * tagType) :=
  match keys with
  | [] => None
  | (key, ty) :: keys' =>
      match nonEmptyTag t key with
      | Some tag => Some (tag, ty)
      | None => firstNonEmpty t keys'
      end
  end.

(** Where [setField] ends up after following the pointers of a member, and
    the member once every nil pointer on the way has been set. *)
Fixpoint pointee (v : Value) : Value :=
  match v with
  | VPtr _ elem => pointee elem
  | _ => v
  end.

Fixpoint allocated (v : Value) : Value :=
  match v with
  | VPtr _ elem => VPtr false (allocated elem)
  | _ => v
  end.

(** Whether a pointer on the way to the pointee of a member is nil, so that
    [setField] has to set it (line 183) before it goes on. *)
Fixpoint hasNilPointer (v : Value) : bool :=
  match v with
  | VPtr isNil elem => isNil || hasNilPointer elem
  | _ => false
  end.

(** The shapes [setField] has a case for. *)
Definition coercible (v : Value) : bool :=
  match pointee v with
  | VString _ | VInt _ _ | VFloat _ _ | VBool _ => true
  | VUint KUintptr _ => false
  | VUint _ _ => true
  | _ => false
  end.

(** The name path in the spec's words: the segments of the records the walk
    is inside of, outermost first, each followed by the delimiter. *)
Definition pathOf (stack : list bytes) : bytes :=
  concat (map (fun segment => segment ++ [delimiter]) stack).

(** The query table a decode context works with: the one it has cached, or
    the one the request gives on first use. *)
Definition queryTable (in_ : decodeIn) : gmap string (list string) :=
  match queryVals in_ with
  | None => URL_Query (r in_)
  | Some q => q
  end.

(** The value a query key stands for: the first of its values. *)
Definition firstValue (q : gmap string (list string)) (key : string) : option string :=
  match q !! key with
  | Some (v :: _) => Some v
  | _ => None
  end.

(** The dotted names of the annotated members of a record, in the order of
    the walk, under the query-name convention: the names of the enclosing
    records, each followed by the delimiter, then the member's own. *)
Fixpoint queryNames (v : Value) (prefix : bytes) : list string :=
  match v with
  | VStruct fields =>
      flat_map (fun '(field, fv) =>
        match findInTag field with
        | (name, _, true) =>
            if bool_decide (Kind_of fv = reflect.Struct)
            then queryNames fv (appendWithDelimiter prefix name)
            else [bytesString (prefix ++ name)]
        | _ => []
        end) fields
  | _ => []
  end.





(** A record none of whose annotated members is unexported, pointers and
    nested records followed. *)
Fixpoint exportedRecord (v : Value) : bool :=
  match v with
  | VStruct fields =>
      forallb (fun '(field, fv) =>
        match findInTag field with
        | (_, _, true) =>
            IsExported field
            && (if bool_decide (Kind_of fv = reflect.Struct)
                then exportedRecord fv else true)
        | _ => true
        end) fields
  | VPtr _ elem => exportedRecord elem
  | _ => true
  end.




(** The cookies a decode context has collected all come from its request,
    each the one [r.Cookie] gives for its name, and its query table, once
    there, is the one of the request. *)
Definition coherent (in_ : decodeIn) : Prop :=
  (queryVals in_ = None \/ queryVals in_ = Some (URL_Query (r in_)))
  /\ Forall (fun c => Request_Cookie (r in_) (Cookie_Name c) = Some c)
            (parsedCookies in_).

(** The errors the walk itself produces. *)
Definition isWalkError (e : error) : bool :=
  match e with
  | UnsupportedType _ | InvalidNumber _ => true
  | _ => false
  end.

(** What [Unmarshal] accepts as a destination. *)
Definition nonNilPointer (dest : Value) : bool :=
  match dest with
  | VPtr false _ => true
  | _ => false
  end.

(** A record whose accepted annotations are all query annotations, nested
    records included. *)
Fixpoint queryOnly (v : Value) : bool :=
  match v with
  | VStruct fields =>
      forallb (fun '(field, fv) =>
        match findInTag field with
        | (_, tagTypeQuery, true) =>
            if bool_decide (Kind_of fv = reflect.Struct) then queryOnly fv else true
        | (_, _, true) => false
        | _ => true
        end) fields
  | _ => false
  end.

(** A result without the decode context it came with. *)
Definition outcome {A : Type} (m : result (decodeIn * A * option error))
  : result (A * option error) :=
  '(_, a, err) ← m; Return (a, err).

(** ** swaggergen: types and query parameters *)

(** [reflect.Type]: a type with its name, which is empty for a type that has
    none. An array is kept without its length. A type is a finite tree: a
    struct type that refers to itself, directly or through its members'
    types, has no counterpart here, and [generateSchema], which recurses
    into the members before it registers the name, is modelled on the types
    for which it returns. *)
Inductive GoType :=
  | TBool (name : string)
  | TInt (name : string) (k : intKind)
  | TUint (name : string) (k : uintKind)
  | TFloat (name : string) (k : floatKind)
  | TString (name : string)
  | TPtr (name : string) (elem : GoType)
  | TSlice (name : string) (elem : GoType)
  | TArray (name : string) (elem : GoType)
  | TMap (name : string) (key elem : GoType)
  | TStruct (name : string) (fields : list (StructField * GoType))
  | TOther (name : string) (k : reflect.Kind).

Definition Type_Name (t : GoType) : string :=
  match t with
  | TBool name | TInt name _ | TUint name _ | TFloat name _ | TString name
  | TPtr name _ | TSlice name _ | TArray name _ | TMap name _ _
  | TStruct name _ | TOther name _ => name
  end.

(** The zero value of a type, the value of [var req Req]. *)
Fixpoint zero (t : GoType) : Value :=
  match t with
  | TBool _ => VBool false
  | TInt _ k => VInt k 0
  | TUint _ k => VUint k 0
  | TFloat _ k => VFloat k 0
  | TString _ => VString ""
  | TPtr _ elem => VPtr true (zero elem)
  | TSlice _ _ => VOther reflect.Slice
  | TArray _ _ => VOther reflect.Array
  | TMap _ _ _ => VOther reflect.Map
  | TStruct _ fields => VStruct (map (fun '(field, ft) => (field, zero ft)) fields)
  | TOther _ k => VOther k
  end.

Definition Type_Kind (t : GoType) : reflect.Kind := Kind_of (zero t).

(** [reflect.StructTag.Get]. *)
Definition Tag_Get (tag : list (string * string)) (key : string) : string :=
  default "" (Tag_Lookup tag key).

(** [strings.Contains]. *)
Fixpoint Contains (s substr : string) : bool :=
  if String.prefix substr s then true
  else match s with
       | EmptyString => false
       | String.String _ s' => Contains s' substr
       end.

(** [Schema], with the members the generator writes to; Format,
    Description, Example and Enum are never set and are left out.
    [Properties] is [None] for a nil map. *)
Inductive Schema := mkSchema {
  Schema_Type : string;
  Properties : option (gmap string Schema);
  Items : option Schema;
  Schema_Required : list string;
  Ref : string;
  AdditionalProperties : bool
}.

Definition emptySchema : Schema := mkSchema "" None None [] "" false.

(** The struct [Parameter] of the generator; its Description is never set
    and is left out. *)
Record Param := mkParameter {
  Parameter_Name : string;
  Parameter_In : string;
  Parameter_Required : bool;
  Parameter_Schema : Schema
}.

(** [isFieldRequired], given the member and its type. *)
Definition isFieldRequired (field : StructField) (ft : GoType) : bool :=
  if bool_decide (Type_Kind ft = reflect.Pointer) then false
  else if Contains (Tag_Get (Tag field) "query") "omitempty" then false
  else if Contains (Tag_Get (Tag field) "json") "omitempty" then false
  else true.

Definition generateSchemaForPrimitive (t : GoType) : Schema :=
  let t := match t with TPtr _ elem => elem | _ => t end in
  match zero t with
  | VString _ => mkSchema "string" None None [] "" false
  | VInt _ _ => mkSchema "integer" None None [] "" false
  | VFloat _ _ => mkSchema "number" None None [] "" false
  | VBool _ => mkSchema "boolean" None None [] "" false
  | _ => mkSchema "string" None None [] "" false
  end.

(** [extractQueryParameters]: the pointer at the top is followed, anything
    but a struct gives no parameter. *)
Fixpoint extractQueryParameters (t : GoType) (prefix : string) : list Param :=
  match t with
  | TPtr _ (TStruct _ fields) | TStruct _ fields =>
      flat_map (fun '(field, ft) =>
        if negb (IsExported field) then []
        else
          let queryTag := Tag_Get (Tag field) "query" in
          if bool_decide (queryTag = "") then []
          else
            let paramName :=
              if bool_decide (prefix = "") then queryTag
              else prefix +:+ "." +:+ queryTag in
            match ft with
            | TStruct _ _ | TPtr _ (TStruct _ _) => extractQueryParameters ft paramName
            | _ =>
                [mkParameter paramName "query" (isFieldRequired field ft)
                   (generateSchemaForPrimitive ft)]
            end) fields
  | _ => []
  end.

(** The name buffer of the decoder that goes with a prefix of the
    generator. *)
Definition bufferOf (prefix : string) : bytes :=
  if bool_decide (prefix = "") then [] else stringBytes prefix ++ [delimiter].

(** A request type the generator and the decoder read alike: its accepted
    annotations are query annotations on exported members, none of them a
    pointer to a struct, nested structs included. *)
Fixpoint documentable (t : GoType) : bool :=
  match t with
  | TStruct _ fields =>
      forallb (fun '(field, ft) =>
        match findInTag field with
        | (_, tagTypeQuery, true) =>
            IsExported field
            && match ft with
               | TStruct _ _ => documentable ft
               | TPtr _ (TStruct _ _) => false
               | TOther _ k => negb (bool_decide (k = reflect.Struct))
               | _ => true
               end
        | (_, _, true) => false
        | _ => true
        end) fields
  | _ => false
  end.

(** ** swaggergen: schemas *)

(** [strings.Split(s, sep)] for a separator of one character. *)
Fixpoint Split (s : string) (sep : ascii) : list string :=
  match s with
  | EmptyString => [""]
  | String.String c s' =>
      if bool_decide (c = sep) then "" :: Split s' sep
      else match Split s' sep with
           | part :: parts => String.String c part :: parts
           | [] => [String.String c ""]
           end
  end.

(** The two registries of the [Generator]: its own [schemas] and the
    [Schemas] of the components it shares with the document. *)
Record Registry := mkRegistry {
  schemas : gmap string Schema;
  components_Schemas : gmap string Schema
}.

Fixpoint getTypeName (t : GoType) : string :=
  if bool_decide (Type_Name t = "") then
    match t with
    | TSlice _ elem => "ArrayOf" +:+ getTypeName elem
    | TMap _ _ elem => "MapOf" +:+ getTypeName elem
    | TPtr _ elem => getTypeName elem
    | _ => ""
    end
  else Type_Name t.

Definition refSchema (typeName : string) : Schema :=
  mkSchema "" None None [] ("#/components/schemas/" +:+ typeName) false.

(** The json tag of a member as [generateSchema] reads it: the name of the
    property, whether the member is skipped, and whether it is required. *)
Definition jsonMember (field : StructField) (ft : GoType) : string * bool * bool :=
  let jsonTag := Tag_Get (Tag field) "json" in
  if bool_decide (jsonTag = "") then
    (Name field, false, negb (bool_decide (Type_Kind ft = reflect.Pointer)))
  else
    let parts := Split jsonTag ","%char in
    let fieldName :=
      match parts with
      | part :: _ =>
          if bool_decide (part = "") || bool_decide (part = "-") then Name field else part
      | [] => Name field
      end in
    (fieldName, bool_decide (jsonTag = "-"),
     negb (bool_decide ("omitempty" ∈ tail parts))).

Section SchemaProperties.

(** The call [g.generateSchema(field.Type)] of the loop. *)
Variable generateSchema_rec : Registry -> GoType -> Registry * Schema.

(** The loop of [generateSchema] over the members of a struct, with the
    properties and the required names collected so far. *)
Fixpoint generateProperties (g : Registry) (fields : list (StructField * GoType))
    (properties : gmap string Schema) (required : list string)
  : Registry * gmap string Schema * list string :=
  match fields with
  | [] => (g, properties, required)
  | (field, ft) :: rest =>
      if negb (IsExported field) then generateProperties g rest properties required
      else
        let '(fieldName, skip, isRequired) := jsonMember field ft in
        if skip then generateProperties g rest properties required
        else
          let required := if isRequired then required ++ [fieldName] else required in
          let '(g, fieldSchema) := generateSchema_rec g ft in
          generateProperties g rest (<[fieldName := fieldSchema]> properties) required
  end.

End SchemaProperties.

(** [generateSchema]: the registries after the call and the schema returned.
    The pointer at the top is followed once. *)
Fixpoint generateSchema (g : Registry) (t : GoType) : Registry * Schema :=
  let body := fun t : GoType =>
    let typeName := getTypeName t in
    if negb (bool_decide (typeName = "")) && bool_decide (is_Some (schemas g !! typeName))
    then (g, refSchema typeName)
    else
      match t with
      | TString _ => (g, mkSchema "string" None None [] "" false)
      | TInt _ _ => (g, mkSchema "integer" None None [] "" false)
      | TFloat _ _ => (g, mkSchema "number" None None [] "" false)
      | TBool _ => (g, mkSchema "boolean" None None [] "" false)
      | TSlice _ elem | TArray _ elem =>
          let '(g, itemSchema) := generateSchema g elem in
          (g, mkSchema "array" None (Some itemSchema) [] "" false)
      | TMap _ _ _ => (g, mkSchema "object" None None [] "" true)
      | TStruct _ fields =>
          let '(g, properties, required) :=
            generateProperties generateSchema g fields ∅ [] in
          let schema := mkSchema "object" (Some properties) None required "" false in
          if negb (bool_decide (typeName = "")) then
            (mkRegistry (<[typeName := schema]> (schemas g))
                        (<[typeName := schema]> (components_Schemas g)),
             refSchema typeName)
          else (g, schema)
      | _ => (g, emptySchema)
      end in
  match t with
  | TPtr _ elem => body elem
  | _ => body t
  end.

(** ** swaggergen: the document *)

Record MediaType := mkMediaType { MediaType_Schema : option Schema }.

Record Response := mkResponse {
  Response_Description : string;
  Response_Content : option (gmap string MediaType)
}.

Record RequestBody := mkRequestBody {
  RequestBody_Description : string;
  RequestBody_Content : gmap string MediaType;
  RequestBody_Required : bool
}.

Record Operation := mkOperation {
  Operation_Tags : list string;
  Operation_Summary : string;
  Operation_Description : string;
  OperationID : string;
  Parameters : list Param;
  Operation_RequestBody : option RequestBody;
  Responses : gmap string Response
}.

Record PathItem := mkPathItem {
  GET_ : option Operation;
  POST : option Operation;
  PUT : option Operation;
  DELETE : option Operation;
  PATCH : option Operation
}.

(** [HandlerInfo]; a request or response type that is nil is [None]. *)
Record HandlerInfo := mkHandlerInfo {
  HandlerInfo_Name : string;
  HandlerInfo_Path : string;
  HandlerInfo_Method : string;
  RequestType : option GoType;
  ResponseType : option GoType;
  HandlerInfo_Tags : list string;
  HandlerInfo_Summary : string;
  HandlerInfo_Description : string
}.

(** The [Generator]: the paths of its document and its registries. The Info
    and Servers of the document, which only SetInfo and AddServer touch, are
    left out. *)
Record Generator := mkGenerator {
  Paths : gmap string PathItem;
  registry : Registry
}.

Definition NewGenerator : Generator := mkGenerator ∅ (mkRegistry ∅ ∅).

(** The operation of a path item under a method name in upper case. *)
Definition operationOf (item : PathItem) (method : string) : option Operation :=
  if bool_decide (method = "GET") then GET_ item
  else if bool_decide (method = "POST") then POST item
  else if bool_decide (method = "PUT") then PUT item
  else if bool_decide (method = "DELETE") then DELETE item
  else if bool_decide (method = "PATCH") then PATCH item
  else None.

Definition methods : list string := ["GET"; "POST"; "PUT"; "DELETE"; "PATCH"].

Section Swagger.

(** [strings.ToUpper]. *)
Variable ToUpper : string -> string.

(** The first part of [RegisterHandler]: the operation it builds and the
    registries after building it. *)
Definition buildOperation (g : Registry) (info : HandlerInfo) : Registry * Operation :=
  let '(g, parameters, requestBody) :=
    match RequestType info with
    | Some requestType =>
        if bool_decide (Type_Kind requestType = reflect.Invalid) then (g, [], None)
        else
          let queryParams := extractQueryParameters requestType "" in
          if bool_decide (0 < List.length queryParams)%nat then (g, queryParams, None)
          else
            let '(g, reqSchema) := generateSchema g requestType in
            (g, [], Some (mkRequestBody "Request body"
                            {["application/json" := mkMediaType (Some reqSchema)]} true))
    | None => (g, [], None)
    end in
  let '(g, ok) :=
    match ResponseType info with
    | Some responseType =>
        if bool_decide (Type_Kind responseType = reflect.Invalid)
        then (g, mkResponse "Successful response" None)
        else
          let '(g, respSchema) := generateSchema g responseType in
          (g, mkResponse "Successful response"
                (Some {["application/json" := mkMediaType (Some respSchema)]}))
    | None => (g, mkResponse "Successful response" None)
    end in
  (g, mkOperation (HandlerInfo_Tags info) (HandlerInfo_Summary info)
        (HandlerInfo_Description info) (HandlerInfo_Name info) parameters requestBody
        (<["500" := mkResponse "Internal server error" None]> (<["200" := ok]> ∅))).

(** [RegisterHandler] of the generator. *)
Definition Generator_RegisterHandler (g : Generator) (info : HandlerInfo) : Generator :=
  let pathItem :=
    default (mkPathItem None None None None None) (Paths g !! HandlerInfo_Path info) in
  let '(registry, operation) := buildOperation (registry g) info in
  let method := ToUpper (HandlerInfo_Method info) in
  let pathItem :=
    if bool_decide (method = "GET") then
      mkPathItem (Some operation) (POST pathItem) (PUT pathItem) (DELETE pathItem)
        (PATCH pathItem)
    else if bool_decide (method = "POST") then
      mkPathItem (GET_ pathItem) (Some operation) (PUT pathItem) (DELETE pathItem)
        (PATCH pathItem)
    else if bool_decide (method = "PUT") then
      mkPathItem (GET_ pathItem) (POST pathItem) (Some operation) (DELETE pathItem)
        (PATCH pathItem)
    else if bool_decide (method = "DELETE") then
      mkPathItem (GET_ pathItem) (POST pathItem) (PUT pathItem) (Some operation)
        (PATCH pathItem)
    else if bool_decide (method = "PATCH") then
      mkPathItem (GET_ pathItem) (POST pathItem) (PUT pathItem) (DELETE pathItem)
        (Some operation)
    else pathItem in
  mkGenerator (<[HandlerInfo_Path info := pathItem]> (Paths g)) registry.

End Swagger.

(** ** Values for the worked examples *)

(** An exported member with the given tag. *)
Definition exported (name : string) (tag : list (string * string)) : StructField :=
  mkStructField name "" false tag.

(** An unexported member of package httpio_test. *)
Definition unexported (name : string) (tag : list (string * string)) : StructField :=
  mkStructField name "httpio_test" false tag.

(** Stand-ins for what lies outside the package, for examples in which it
    plays no part: header names already canonical, no float member, a body
    that decodes to nothing, the default path lookuper. *)
Definition canonicalNames (key : string) : string := key.
Definition noFloat (s : string) : Z * option NumError :=
  (0, Some (mkNumError "ParseFloat" s ErrSyntax)).
Definition sameFloat (bits : Z) : Z := bits.
Definition emptyObject (b : body) (dest : Value) : Value * option error := (dest, None).

Definition GET (query : list (string * list string)) : Request :=
  mkRequest ∅ (list_to_map query) [] (Unread "").

Section Decoder.

(** What the decoder takes from outside the package: the canonical form
    [http.Header.Get] gives a header name, [strconv.ParseFloat(s, 64)] (the
    bits of the float64, or the error), the rounding of [SetFloat] on a
    float32, the JSON decoder run on a body and a destination, and the
    process-wide path lookuper that [SetPathLookuper] installs. *)
Variable CanonicalMIMEHeaderKey : string -> string.
Variable ParseFloat : string -> Z * option NumError.
Variable float32 : Z -> Z.
Variable jsonDecode : body -> Value -> Value * option error.
Variable currentPathLookuper : Request -> string -> string * bool.

(** [r.Header.Get(key)]. *)
Definition Header_Get (h : gmap string (list string)) (key : string) : string :=
  match h !! CanonicalMIMEHeaderKey key with
  | Some (v :: _) => v
  | _ => ""
  end.

Definition getValue (in_ : decodeIn) (name : bytes) (tagType : tagType)
  : decodeIn * string * bool :=
  match tagType with
  | tagTypeQuery =>
      let vals_tbl :=
        match queryVals in_ with
        | None => URL_Query (r in_)
        | Some q => q
        end in
      let in' := mkDecodeIn (r in_) (Some vals_tbl) (parsedCookies in_) in
      match vals_tbl !! bytesString name with
      | Some (v :: _) => (in', v, true)
      | _ => (in', "", false)
      end
  | tagTypePath =>
      let '(s, ok) := currentPathLookuper (r in_) (bytesString name) in
      (in_, s, ok)
  | tagTypeHeader =>
      (in_, Header_Get (Header (r in_)) (bytesString name), true)
  | tagTypeCookie =>
      match findCookieVal (parsedCookies in_) (bytesString name) with
      | (cookieVal, true) => (in_, cookieVal, true)
      | _ =>
          match Request_Cookie (r in_) (bytesString name) with
          | None => (in_, "", false)
          | Some cookie =>
              (mkDecodeIn (r in_) (queryVals in_) (parsedCookies in_ ++ [cookie]),
               Cookie_Value cookie, true)
          end
      end
  | tagTypeNone => (in_, "", false)
  end.

(** [setField]. The result is the member after the call and the error
    returned. [SetInt] and [SetUint] store the parsed 64-bit number converted
    to the member's width. *)
Fixpoint setField (fl : flagRO) (v : Value) (value : string)
  : result (Value * option error) :=
  match v with
  | VPtr isNil elem =>
      if isNil && negb (assignable fl) then Panics PanicNotAssignable
      else
        '(elem', err) ← setField (elemFlag fl) elem value;
        Return (VPtr false elem', err)
  | VString _ =>
      if assignable fl then Return (VString value, None)
      else Panics PanicNotAssignable
  | VInt k _ =>
      match ParseInt value with
      | (_, Some err) => Return (v, Some (InvalidNumber err))
      | (intVal, None) =>
          if assignable fl then Return (VInt k (wrapSigned (intBits k) intVal), None)
          else Panics PanicNotAssignable
      end
  | VUint KUintptr _ => Return (v, Some (UnsupportedType reflect.Uintptr))
  | VUint k _ =>
      match ParseUint value with
      | (_, Some err) => Return (v, Some (InvalidNumber err))
      | (uintVal, None) =>
          if assignable fl then Return (VUint k (wrapUnsigned (uintBits k) uintVal), None)
          else Panics PanicNotAssignable
      end
  | VFloat k _ =>
      match ParseFloat value with
      | (_, Some err) => Return (v, Some (InvalidNumber err))
      | (floatVal, None) =>
          if assignable fl then
            Return (VFloat k match k with
                             | KFloat32 => float32 floatVal
                             | KFloat64 => floatVal
                             end, None)
          else Panics PanicNotAssignable
      end
  | VBool _ =>
      if assignable fl then Return (VBool (bool_decide (value = "true")), None)
      else Panics PanicNotAssignable
  | VStruct _ | VOther _ => Return (v, Some (UnsupportedType (Kind_of v)))
  end.

(** What [decode] and its loop return: the decode context, the destination
    after the call, and the error. A destination is changed in place, so it
    is there whether or not the error is nil. *)
Definition decoded (A : Type) : Type := result (decodeIn * A * option error).

Section Members.

(** The call [decode(in, v.Field(i), fullName)] of the loop. *)
Variable decode_rec : decodeIn -> flagRO -> Value -> bytes -> decoded Value.

(** One turn of the loop of [decode] over the members of a struct: the member
    after the turn, the error that ends the loop if there is one, and
    [fullName] as the turn leaves it. *)
Definition decodeMember (in_ : decodeIn) (fl : flagRO) (field : StructField)
    (fv : Value) (fullName : bytes) : result (decodeIn * Value * option error * bytes) :=
  let '(name, tagType, ok) := findInTag field in
  if negb ok then Return (in_, fv, None, fullName)
  else if bool_decide (Kind_of fv = reflect.Struct) then
    let fullName := appendWithDelimiter fullName name in
    '(in_, fv, err) ← decode_rec in_ (fieldFlag fl field) fv fullName;
    match err with
    | Some e => Return (in_, fv, Some e, fullName)
    | None =>
        fullName ← popWithDelimiter fullName name;
        Return (in_, fv, None, fullName)
    end
  else
    let fullName := fullName ++ name in
    let '(in_, value, ok) := getValue in_ fullName tagType in
    let fullName := take (List.length fullName - List.length name) fullName in
    if negb ok then Return (in_, fv, None, fullName)
    else
      '(fv, err) ← setField (fieldFlag fl field) fv value;
      Return (in_, fv, err, fullName).

(** The loop: it stops at the first error and leaves the members after it as
    they were. *)
Fixpoint decodeFields (in_ : decodeIn) (fl : flagRO)
    (fields : list (StructField * Value)) (fullName : bytes)
  : decoded (list (StructField * Value)) :=
  match fields with
  | [] => Return (in_, [], None)
  | (field, fv) :: rest =>
      '(in_, fv, err, fullName) ← decodeMember in_ fl field fv fullName;
      match err with
      | Some e => Return (in_, (field, fv) :: rest, Some e)
      | None =>
          '(in_, rest, err) ← decodeFields in_ fl rest fullName;
          Return (in_, (field, fv) :: rest, err)
      end
  end.

End Members.

Fixpoint decode (in_ : decodeIn) (fl : flagRO) (v : Value) (fullName : bytes)
  : decoded Value :=
  match v with
  | VPtr isNil elem =>
      if isNil && negb (assignable fl) then Panics PanicNotAssignable
      else
        '(in_, elem, err) ← decode in_ (elemFlag fl) elem fullName;
        Return (in_, VPtr false elem, err)
  | VStruct fields =>
      '(in_, fields, err) ← decodeFields decode in_ fl fields fullName;
      Return (in_, VStruct fields, err)
  | _ => Return (in_, v, Some (UnsupportedType (Kind_of v)))
  end.

(** Lines 31-44 of [Unmarshal], the part after the JSON step: the destination
    must be a non-nil pointer, and the walk starts at its pointee with the
    empty name buffer taken from the pool. *)
Definition walkDestination (r : Request) (dest : Value)
  : result (Request * Value * option error) :=
  match dest with
  | VPtr false v =>
      '(_, v, err) ← decode (mkDecodeIn r None []) flagRW v [];
      Return (r, VPtr false v, err)
  | _ => Return (r, dest, Some InvalidDestination)
  end.

(** The body after the JSON decoder has been run on it. *)
Definition readBody (r : Request) : Request :=
  mkRequest (Header r) (URL_Query r) (Cookies r) ReadFrom.

(** The walk in the spec's words: it carries the stack of the records it is
    inside of, and a member is looked up under the path of that stack
    followed by its own name; nothing is cut off a buffer. *)
Section MembersAt.

Variable decodeAt_rec : decodeIn -> flagRO -> Value -> list bytes -> decoded Value.

Definition decodeMemberAt (in_ : decodeIn) (fl : flagRO) (field : StructField)
    (fv : Value) (stack : list bytes) : decoded Value :=
  let '(name, tagType, ok) := findInTag field in
  if negb ok then Return (in_, fv, None)
  else if bool_decide (Kind_of fv = reflect.Struct) then
    decodeAt_rec in_ (fieldFlag fl field) fv (stack ++ [name])
  else
    let '(in_, value, ok) := getValue in_ (pathOf stack ++ name) tagType in
    if negb ok then Return (in_, fv, None)
    else
      '(fv, err) ← setField (fieldFlag fl field) fv value;
      Return (in_, fv, err).

Fixpoint decodeFieldsAt (in_ : decodeIn) (fl : flagRO)
    (fields : list (StructField * Value)) (stack : list bytes)
  : decoded (list (StructField * Value)) :=
  match fields with
  | [] => Return (in_, [], None)
  | (field, fv) :: rest =>
      '(in_, fv, err) ← decodeMemberAt in_ fl field fv stack;
      match err with
      | Some e => Return (in_, (field, fv) :: rest, Some e)
      | None =>
          '(in_, rest, err) ← decodeFieldsAt in_ fl rest stack;
          Return (in_, (field, fv) :: rest, err)
      end
  end.

End MembersAt.

Fixpoint decodeAt (in_ : decodeIn) (fl : flagRO) (v : Value) (stack : list bytes)
  : decoded Value :=
  match v with
  | VPtr isNil elem =>
      if isNil && negb (assignable fl) then Panics PanicNotAssignable
      else
        '(in_, elem, err) ← decodeAt in_ (elemFlag fl) elem stack;
        Return (in_, VPtr false elem, err)
  | VStruct fields =>
      '(in_, fields, err) ← decodeFieldsAt decodeAt in_ fl fields stack;
      Return (in_, VStruct fields, err)
  | _ => Return (in_, v, Some (UnsupportedType (Kind_of v)))
  end.

(** [Unmarshal]: the request and the destination after the call, and the
    error. *)
Definition Unmarshal (r : Request) (dest : Value)
  : result (Request * Value * option error) :=
  if bool_decide (Header_Get (Header r) "Content-Type" = "application/json") then
    match jsonDecode (Body r) dest with
    | (dest, Some err) => Return (readBody r, dest, Some err)
    | (dest, None) => walkDestination (readBody r) dest
    end
  else walkDestination r dest.


(** What a facet of the request holds under a name, asked of the request
    itself with no decode context in between. *)
Definition resolve (req : Request) (name : string) (ty : tagType) : string * bool :=
  match ty with
  | tagTypeQuery =>
      match URL_Query req !! name with
      | Some (v :: _) => (v, true)
      | _ => ("", false)
      end
  | tagTypePath => currentPathLookuper req name
  | tagTypeHeader => (Header_Get (Header req) name, true)
  | tagTypeCookie =>
      match Request_Cookie req name with
      | Some cookie => (Cookie_Value cookie, true)
      | None => ("", false)
      end
  | tagTypeNone => ("", false)
  end.

(** ** Induction over values *)

(** Induction over values, with the members of a struct as premises. *)
Lemma Value_nested_ind (P : Value -> Prop) :
  (forall b, P (VBool b)) ->
  (forall k n, P (VInt k n)) ->
  (forall k n, P (VUint k n)) ->
  (forall k bits, P (VFloat k bits)) ->
  (forall s, P (VString s)) ->
  (forall isNil elem, P elem -> P (VPtr isNil elem)) ->
  (forall fields, Forall (fun member => P member.2) fields -> P (VStruct fields)) ->
  (forall k, P (VOther k)) ->
  forall v, P v.
Proof.
  intros HBool HInt HUint HFloat HString HPtr HStruct HOther.
  fix IH 1. intros [b|k n|k n|k bits|s|isNil elem|fields|k].
  - apply HBool.
  - apply HInt.
  - apply HUint.
  - apply HFloat.
  - apply HString.
  - apply HPtr, IH.
  - apply HStruct. induction fields as [|[field fv] fields IHfields].
    + constructor.
    + constructor; [apply IH|exact IHfields].
  - apply HOther.
Qed.

(** ** Scalar coercion *)

(** Setting a member that may be set never panics when the text parses. *)
Lemma setField_int_ok k old raw n :
  ParseInt raw = (n, None) ->
  setField flagRW (VInt k old) raw = Return (VInt k (wrapSigned (intBits k) n), None).
Proof. intros H. simpl. rewrite H. reflexivity. Qed.

Lemma setField_uint_ok k old raw n :
  k <> KUintptr ->
  ParseUint raw = (n, None) ->
  setField flagRW (VUint k old) raw = Return (VUint k (wrapUnsigned (uintBits k) n), None).
Proof. intros Hk H. destruct k; try congruence; simpl; rewrite H; reflexivity. Qed.

(** C5: a boolean member that may be set becomes true exactly when the text
    is "true" and false for every other text, among them "True", "False",
    "1", "", "yes" and "false"; whatever the flag of the member, boolean
    coercion returns no error. *)
Theorem setField_bool_exact (fl : flagRO) (b : bool) (raw : string) :
  (exists b', setField flagRW (VBool b) raw = Return (VBool b', None)
              /\ (b' = true <-> raw = "true"))
  /\ (forall v' e, setField fl (VBool b) raw <> Return (v', Some e))
  /\ setField flagRW (VBool b) "true" = Return (VBool true, None)
  /\ Forall (fun s => setField flagRW (VBool b) s = Return (VBool false, None))
        ["True"; "False"; "1"; ""; "yes"; "false"].
Proof.
  repeat split.
  - exists (bool_decide (raw = "true")). split; [reflexivity|].
    rewrite bool_decide_eq_true. tauto.
  - intros v' e. simpl. destruct (assignable fl); congruence.
  - repeat constructor.
Qed.

(** C10 as amended: a text that parses as a 64-bit number is stored in an
    integer member of any width without an error and without a panic; the
    member receives the number converted to its width, so "300" leaves 44 in
    an int8 and in a uint8. *)
Theorem setField_integer_converts (raw : string) (old : Z) :
  (forall k n, ParseInt raw = (n, None) ->
     setField flagRW (VInt k old) raw = Return (VInt k (wrapSigned (intBits k) n), None))
  /\ (forall k n, k <> KUintptr -> ParseUint raw = (n, None) ->
     setField flagRW (VUint k old) raw = Return (VUint k (wrapUnsigned (uintBits k) n), None))
  /\ setField flagRW (VInt KInt8 old) "300" = Return (VInt KInt8 44, None)
  /\ setField flagRW (VUint KUint8 old) "300" = Return (VUint KUint8 44, None).
Proof.
  split; [|split; [|split]].
  - intros k n H. by apply setField_int_ok.
  - intros k n Hk H. by apply setField_uint_ok.
  - reflexivity.
  - reflexivity.
Qed.

(** ** Annotations *)

Lemma findInTag_firstNonEmpty (t : StructField) :
  findInTag t =
    match firstNonEmpty t annotations with
    | Some (tag, ty) => (stringBytes tag, ty, true)
    | None => ([], tagTypeNone, false)
    end.
Proof.
  unfold findInTag. simpl.
  repeat (destruct (nonEmptyTag t _); [reflexivity|]). reflexivity.
Qed.

Lemma decodeMember_untagged rec in_ fl field fv fullName name ty :
  findInTag field = (name, ty, false) ->
  decodeMember rec in_ fl field fv fullName = Return (in_, fv, None, fullName).
Proof. intros H. unfold decodeMember. rewrite H. reflexivity. Qed.

(** The name buffer after a scalar member: cutting the appended name off
    again gives back the buffer as it was. *)
Lemma take_app_name (fullName name : bytes) :
  take (List.length (fullName ++ name) - List.length name) (fullName ++ name) = fullName.
Proof.
  rewrite length_app.
  replace (List.length fullName + List.length name - List.length name)%nat
    with (List.length fullName) by lia.
  by rewrite take_app_length.
Qed.

(** The turn of the loop on a member that is not a struct. *)
Lemma decodeMember_scalar rec in_ fl field fv fullName name ty :
  findInTag field = (name, ty, true) ->
  Kind_of fv <> reflect.Struct ->
  decodeMember rec in_ fl field fv fullName =
    let '(in1, value, ok) := getValue in_ (fullName ++ name) ty in
    if ok then
      '(fv', err) ← setField (fieldFlag fl field) fv value;
      Return (in1, fv', err, fullName)
    else Return (in1, fv, None, fullName).
Proof.
  intros H Hk. unfold decodeMember. rewrite H. simpl.
  rewrite bool_decide_eq_false_2 by done.
  destruct (getValue in_ (fullName ++ name) ty) as [[in1 value] ok].
  rewrite take_app_name. destruct ok; simpl; [|reflexivity].
  destruct (setField _ fv value) as [[fv' err]|]; reflexivity.
Qed.

(** C2 as amended: the annotation of a member is the first of query, path,
    header, cookie whose value is not empty; a member with none of them, such
    as one that has only a json annotation, ends its turn of the loop with
    the decode context, the member and the name buffer as they were and no
    error. *)
Theorem findInTag_priority (t : StructField) :
  findInTag t =
    match firstNonEmpty t annotations with
    | Some (tag, ty) => (stringBytes tag, ty, true)
    | None => ([], tagTypeNone, false)
    end
  /\ (firstNonEmpty t annotations = None ->
      forall rec in_ fl fv fullName,
        decodeMember rec in_ fl t fv fullName = Return (in_, fv, None, fullName))
  /\ (forall name, Tag t = [("json", name)] -> firstNonEmpty t annotations = None).
Proof.
  split; [apply findInTag_firstNonEmpty|split].
  - intros Hnone rec in_ fl fv fullName.
    apply decodeMember_untagged with (name := []) (ty := tagTypeNone).
    rewrite findInTag_firstNonEmpty, Hnone. reflexivity.
  - intros name Htag. unfold annotations, firstNonEmpty, nonEmptyTag.
    rewrite Htag. reflexivity.
Qed.

(** ** Resolvers *)

Lemma Header_Get_absent (h : gmap string (list string)) (key : string) :
  h !! CanonicalMIMEHeaderKey key = None -> Header_Get h key = "".
Proof. intros H. unfold Header_Get. rewrite H. reflexivity. Qed.

(** C3 as amended: the header resolver reports every name as present, with
    the empty string for a header the request does not have; a
    header-annotated member is therefore always handed to coercion, with that
    text. With the header missing, a string member that may be set loses its
    earlier content to the empty string and a boolean member becomes false,
    while for an integer member the empty string does not parse: its turn
    returns the syntax error of the parser and the member keeps its value. *)
Theorem header_always_present (in_ : decodeIn) (name : bytes) :
  getValue in_ name tagTypeHeader
    = (in_, Header_Get (Header (r in_)) (bytesString name), true)
  /\ (Header (r in_) !! CanonicalMIMEHeaderKey (bytesString name) = None ->
      getValue in_ name tagTypeHeader = (in_, "", true))
  /\ (forall rec fl field fv fullName,
        findInTag field = (name, tagTypeHeader, true) ->
        Kind_of fv <> reflect.Struct ->
        decodeMember rec in_ fl field fv fullName =
          '(fv', err) ← setField (fieldFlag fl field) fv
                          (Header_Get (Header (r in_)) (bytesString (fullName ++ name)));
          Return (in_, fv', err, fullName))
  /\ (forall rec fl field fullName,
        findInTag field = (name, tagTypeHeader, true) ->
        Header (r in_) !! CanonicalMIMEHeaderKey (bytesString (fullName ++ name)) = None ->
        (forall preset,
           fieldFlag fl field = flagRW ->
           decodeMember rec in_ fl field (VString preset) fullName
             = Return (in_, VString "", None, fullName))
        /\ (forall preset,
             fieldFlag fl field = flagRW ->
             decodeMember rec in_ fl field (VBool preset) fullName
               = Return (in_, VBool false, None, fullName))
        /\ (forall k preset,
             decodeMember rec in_ fl field (VInt k preset) fullName
               = Return (in_, VInt k preset,
                         Some (InvalidNumber (mkNumError "ParseInt" "" ErrSyntax)),
                         fullName))
        /\ (forall k preset,
             k <> KUintptr ->
             decodeMember rec in_ fl field (VUint k preset) fullName
               = Return (in_, VUint k preset,
                         Some (InvalidNumber (mkNumError "ParseUint" "" ErrSyntax)),
                         fullName))).
Proof.
  split; [reflexivity|split; [|split]].
  - intros H. simpl. by rewrite Header_Get_absent.
  - intros rec fl field fv fullName Hf Hk.
    by rewrite (decodeMember_scalar rec in_ fl field fv fullName name tagTypeHeader).
  - intros rec fl field fullName Hf Habs.
    assert (forall fv, Kind_of fv <> reflect.Struct ->
              decodeMember rec in_ fl field fv fullName =
                '(fv', err) ← setField (fieldFlag fl field) fv "";
                Return (in_, fv', err, fullName)) as Hturn.
    { intros fv Hk.
      rewrite (decodeMember_scalar rec in_ fl field fv fullName name tagTypeHeader)
        by done.
      simpl. by rewrite Header_Get_absent. }
    split; [|split; [|split]].
    + intros preset Hfl. rewrite Hturn by done. simpl. by rewrite Hfl.
    + intros preset Hfl. rewrite Hturn by done. simpl. by rewrite Hfl.
    + intros k preset. rewrite Hturn by (destruct k; done). reflexivity.
    + intros k preset Hk. rewrite Hturn by (destruct k; done).
      destruct k; try done.
Qed.

(** ** The name buffer *)

Lemma pop_append (fullName name : bytes) :
  popWithDelimiter (appendWithDelimiter fullName name) name = Return fullName.
Proof.
  unfold popWithDelimiter, appendWithDelimiter.
  rewrite !length_app. simpl.
  destruct (Nat.ltb_spec (List.length fullName + List.length name + 1)
                         (List.length name + 1)) as [Hlt|_]; [lia|].
  f_equal. rewrite <- app_assoc.
  replace (List.length fullName + List.length name + 1 - List.length name - 1)%nat
    with (List.length fullName) by lia.
  by rewrite take_app_length.
Qed.

(** A turn of the loop that ends without an error leaves the name buffer as
    it found it. *)
Lemma decodeMember_fullName rec in_ fl field fv fullName in1 fv' fullName' :
  decodeMember rec in_ fl field fv fullName = Return (in1, fv', None, fullName') ->
  fullName' = fullName.
Proof.
  unfold decodeMember.
  destruct (findInTag field) as [[name ty] ok].
  destruct ok; simpl; [|congruence].
  destruct (bool_decide (Kind_of fv = reflect.Struct)).
  - destruct (rec _ _ _ _) as [[[in2 fv2] [e|]]|]; simpl; try congruence.
    rewrite pop_append. simpl. congruence.
  - destruct (getValue _ _ _) as [[in2 value] ok]. rewrite take_app_name.
    destruct ok; simpl; [|congruence].
    destruct (setField _ _ _) as [[fv2 err]|]; simpl; congruence.
Qed.

(** The loop, one turn unrolled, with the buffer known to be restored. *)
Lemma decodeFields_cons rec in_ fl field fv rest fullName :
  decodeFields rec in_ fl ((field, fv) :: rest) fullName =
    '(in1, fv', err, _) ← decodeMember rec in_ fl field fv fullName;
    match err with
    | Some e => Return (in1, (field, fv') :: rest, Some e)
    | None =>
        '(in2, rest', err') ← decodeFields rec in1 fl rest fullName;
        Return (in2, (field, fv') :: rest', err')
    end.
Proof.
  simpl.
  destruct (decodeMember rec in_ fl field fv fullName)
    as [[[[in1 fv'] [e|]] fullName']|] eqn:Hm; simpl; try reflexivity.
  by rewrite (decodeMember_fullName _ _ _ _ _ _ _ _ _ Hm).
Qed.

Lemma decodeFields_app rec in_ fl pre post fullName :
  decodeFields rec in_ fl (pre ++ post) fullName =
    '(in1, pre', err) ← decodeFields rec in_ fl pre fullName;
    match err with
    | Some e => Return (in1, pre' ++ post, Some e)
    | None =>
        '(in2, post', err') ← decodeFields rec in1 fl post fullName;
        Return (in2, pre' ++ post', err')
    end.
Proof.
  revert in_. induction pre as [|[field fv] pre IH]; intros in_.
  - simpl. destruct (decodeFields rec in_ fl post fullName) as [[[in2 post'] err']|];
      reflexivity.
  - rewrite <- app_comm_cons, !decodeFields_cons.
    destruct (decodeMember rec in_ fl field fv fullName)
      as [[[[in1 fv'] [e|]] fullName']|]; simpl; try reflexivity.
    rewrite IH.
    destruct (decodeFields rec in1 fl pre fullName) as [[[in2 pre'] [e|]]|];
      simpl; try reflexivity.
    destruct (decodeFields rec in2 fl post fullName) as [[[in3 post'] err']|];
      reflexivity.
Qed.

(** ** The walk *)

Lemma walkDestination_request req dest req' dest' err :
  walkDestination req dest = Return (req', dest', err) -> req' = req.
Proof.
  unfold walkDestination. destruct dest as [| | | | |[] v| |]; try congruence.
  destruct (decode _ _ _ _) as [[[in1 v'] e]|]; simpl; congruence.
Qed.

(** C1: with the Content-Type header equal to "application/json", Unmarshal
    runs the JSON decoder on the body and the destination before anything
    else; with any other value, "application/json; charset=utf-8" among
    them, it goes straight to the walk with the request as it came. A body
    nothing had read from has been read from after the call exactly when the
    header is "application/json". *)
Theorem Unmarshal_json_gate (req : Request) (dest : Value) :
  let contentType := Header_Get (Header req) "Content-Type" in
  (contentType = "application/json" ->
     Unmarshal req dest =
       match jsonDecode (Body req) dest with
       | (dest', Some err) => Return (readBody req, dest', Some err)
       | (dest', None) => walkDestination (readBody req) dest'
       end)
  /\ (contentType <> "application/json" ->
       Unmarshal req dest = walkDestination req dest)
  /\ (contentType = "application/json; charset=utf-8" ->
       Unmarshal req dest = walkDestination req dest)
  /\ (forall content req' dest' err,
        Body req = Unread content ->
        Unmarshal req dest = Return (req', dest', err) ->
        (Body req' = ReadFrom <-> contentType = "application/json")
        /\ (contentType <> "application/json" -> req' = req)).
Proof.
  intros contentType. unfold Unmarshal. fold contentType.
  split; [|split; [|split]].
  - intros H. by rewrite bool_decide_eq_true_2.
  - intros H. by rewrite bool_decide_eq_false_2.
  - intros H. rewrite bool_decide_eq_false_2; [done|]. rewrite H. discriminate.
  - intros content req' dest' err Hbody.
    destruct (bool_decide_reflect (contentType = "application/json")) as [Hct|Hct].
    + intros H. split; [|done].
      assert (req' = readBody req) as ->; [|done].
      destruct (jsonDecode (Body req) dest) as [d [e|]].
      * congruence.
      * by apply walkDestination_request in H.
    + intros H. apply walkDestination_request in H as ->.
      rewrite Hbody. split; [split; [discriminate|done]|done].
Qed.

(** C7: when the resolver reports no value for a member that is not a
    struct, the turn of the loop returns the member as it was, without an
    error, and the loop goes on with the members after it. A nil
    pointer-to-string member annotated cookie:"session" stays nil on a request
    without that cookie and points to the cookie's value on a request that
    has it. *)
Theorem absent_member_untouched :
  (forall rec in_ fl field fv fullName name ty in1 value,
     findInTag field = (name, ty, true) ->
     Kind_of fv <> reflect.Struct ->
     getValue in_ (fullName ++ name) ty = (in1, value, false) ->
     decodeMember rec in_ fl field fv fullName = Return (in1, fv, None, fullName)
     /\ forall rest,
         decodeFields rec in_ fl ((field, fv) :: rest) fullName =
           '(in2, rest', err) ← decodeFields rec in1 fl rest fullName;
           Return (in2, (field, fv) :: rest', err))
  /\ (let dest := VPtr false (VStruct
         [(exported "Session" [("cookie", "session")], VPtr true (VString ""))]) in
      walkDestination (GET []) dest = Return (GET [], dest, None))
  /\ (let req := mkRequest ∅ ∅ [mkCookie "session" "abc"] (Unread "") in
      walkDestination req (VPtr false (VStruct
         [(exported "Session" [("cookie", "session")], VPtr true (VString ""))]))
      = Return (req, VPtr false (VStruct
         [(exported "Session" [("cookie", "session")], VPtr false (VString "abc"))]),
         None)).
Proof.
  split; [|split; reflexivity].
  intros rec in_ fl field fv fullName name ty in1 value Hf Hk Hget.
  assert (decodeMember rec in_ fl field fv fullName = Return (in1, fv, None, fullName)) as Hm.
  { rewrite (decodeMember_scalar rec in_ fl field fv fullName name ty) by done.
    rewrite Hget. reflexivity. }
  split; [done|]. intros rest. rewrite decodeFields_cons, Hm. reflexivity.
Qed.

(** C4: an error in the turn of one member ends the loop with that error;
    the members before it keep what their turns gave them, the member itself
    what its turn left in it, the members after it are as they were; an error
    inside a nested record is the error of that record's turn, and Unmarshal
    returns the error with the destination in that state. With
    two int members annotated query:"a" and query:"b" and the query a=30,
    b=abc, Unmarshal returns the syntax error of ParseInt and the first
    member holds 30. *)
Theorem first_error_aborts :
  (forall rec in_ fl pre field fv post fullName in1 pre' in2 fv' e fullName',
     decodeFields rec in_ fl pre fullName = Return (in1, pre', None) ->
     decodeMember rec in1 fl field fv fullName = Return (in2, fv', Some e, fullName') ->
     decodeFields rec in_ fl (pre ++ (field, fv) :: post) fullName
       = Return (in2, pre' ++ (field, fv') :: post, Some e))
  /\ (forall rec in_ fl field fv fullName name ty in1 fv' e,
       findInTag field = (name, ty, true) ->
       Kind_of fv = reflect.Struct ->
       rec in_ (fieldFlag fl field) fv (appendWithDelimiter fullName name)
         = Return (in1, fv', Some e) ->
       decodeMember rec in_ fl field fv fullName
         = Return (in1, fv', Some e, appendWithDelimiter fullName name))
  /\ (forall req fields in1 fields' e,
       Header_Get (Header req) "Content-Type" <> "application/json" ->
       decodeFields decode (mkDecodeIn req None []) flagRW fields []
         = Return (in1, fields', Some e) ->
       Unmarshal req (VPtr false (VStruct fields))
         = Return (req, VPtr false (VStruct fields'), Some e))
  /\ Unmarshal (GET [("a", ["30"]); ("b", ["abc"])])
       (VPtr false (VStruct [(exported "A" [("query", "a")], VInt KInt 0);
                             (exported "B" [("query", "b")], VInt KInt 0)]))
     = Return (GET [("a", ["30"]); ("b", ["abc"])],
               VPtr false (VStruct [(exported "A" [("query", "a")], VInt KInt 30);
                                    (exported "B" [("query", "b")], VInt KInt 0)]),
               Some (InvalidNumber (mkNumError "ParseInt" "abc" ErrSyntax))).
Proof.
  split; [|split; [|split]].
  - intros rec in_ fl pre field fv post fullName in1 pre' in2 fv' e fullName' Hpre Hm.
    rewrite decodeFields_app, Hpre. simpl. rewrite Hm. reflexivity.
  - intros rec in_ fl field fv fullName name ty in1 fv' e Hf Hk Hrec.
    unfold decodeMember. rewrite Hf. simpl.
    rewrite bool_decide_eq_true_2 by done. rewrite Hrec. reflexivity.
  - intros req fields in1 fields' e Hct Hloop.
    unfold Unmarshal. rewrite bool_decide_eq_false_2 by done.
    unfold walkDestination. simpl. rewrite Hloop. reflexivity.
  - unfold Unmarshal, Header_Get. simpl. rewrite lookup_empty. simpl.
    vm_compute. reflexivity.
Qed.

(** ** Unsupported shapes *)

Lemma setField_unsupported (fl : flagRO) (v : Value) (value : string) :
  coercible v = false ->
  assignable fl || negb (hasNilPointer v) = true ->
  setField fl v value
    = Return (allocated v, Some (UnsupportedType (Kind_of (pointee v)))).
Proof.
  unfold coercible.
  induction v as [b|k n|k n|k bits|s|isNil elem IH|fields _|k] using Value_nested_ind;
    simpl; try discriminate; try reflexivity.
  - destruct k; try discriminate. reflexivity.
  - intros Hc Hfl. unfold elemFlag.
    destruct isNil; simpl in *.
    + rewrite orb_false_r in Hfl. rewrite Hfl. simpl.
      rewrite (IH Hc) by (by rewrite Hfl). reflexivity.
    + rewrite (IH Hc Hfl). reflexivity.
Qed.

(** A nil pointer in a member that may not be set: [v.Set] at line 183
    panics before the shape is looked at. *)
Lemma setField_unsupported_panics (fl : flagRO) (v : Value) (value : string) :
  coercible v = false ->
  assignable fl = false ->
  hasNilPointer v = true ->
  setField fl v value = Panics PanicNotAssignable.
Proof.
  unfold coercible. intros Hc Hfl.
  induction v as [b|k n|k n|k bits|s|isNil elem IH|fields _|k] using Value_nested_ind;
    simpl; try discriminate.
  rewrite Hfl. destruct isNil; simpl; [reflexivity|].
  intros Hnil. unfold elemFlag. rewrite (IH Hc Hnil). reflexivity.
Qed.

(** C6 as amended: a member that is not itself a struct and whose shape,
    pointers followed, is none of string, signed integer, unsigned integer,
    float and boolean, when its resolver reports a value and the members
    before it were decoded without error. If the member may be set, or no
    pointer on the way to its shape is nil, the walk ends with
    UnsupportedType, every pointer on the way set. If the member may not be
    set (it is unexported, or reached through an unexported member) and a
    pointer on the way is nil, the walk panics where that pointer is set and
    returns no error at all. When the resolver reports no value the member
    is passed over and its turn returns no error. *)
Theorem unsupported_member_fails :
  (forall rec in_ fl pre field fv post fullName name ty in0 pre' in1 value,
     findInTag field = (name, ty, true) ->
     Kind_of fv <> reflect.Struct ->
     coercible fv = false ->
     assignable (fieldFlag fl field) || negb (hasNilPointer fv) = true ->
     decodeFields rec in_ fl pre fullName = Return (in0, pre', None) ->
     getValue in0 (fullName ++ name) ty = (in1, value, true) ->
     decodeFields rec in_ fl (pre ++ (field, fv) :: post) fullName
       = Return (in1, pre' ++ (field, allocated fv) :: post,
                 Some (UnsupportedType (Kind_of (pointee fv)))))
  /\ (forall rec in_ fl pre field fv post fullName name ty in0 pre' in1 value,
       findInTag field = (name, ty, true) ->
       Kind_of fv <> reflect.Struct ->
       coercible fv = false ->
       assignable (fieldFlag fl field) = false ->
       hasNilPointer fv = true ->
       decodeFields rec in_ fl pre fullName = Return (in0, pre', None) ->
       getValue in0 (fullName ++ name) ty = (in1, value, true) ->
       decodeFields rec in_ fl (pre ++ (field, fv) :: post) fullName
         = Panics PanicNotAssignable)
  /\ (forall rec in_ fl field fv fullName name ty in1 value,
       findInTag field = (name, ty, true) ->
       Kind_of fv <> reflect.Struct ->
       coercible fv = false ->
       getValue in_ (fullName ++ name) ty = (in1, value, false) ->
       decodeMember rec in_ fl field fv fullName = Return (in1, fv, None, fullName)).
Proof.
  split; [|split].
  - intros rec in_ fl pre field fv post fullName name ty in0 pre' in1 value
      Hf Hk Hc Hfl Hpre Hget.
    rewrite decodeFields_app, Hpre. simpl.
    rewrite (decodeMember_scalar rec in0 fl field fv fullName name ty) by done.
    rewrite Hget, setField_unsupported by done. reflexivity.
  - intros rec in_ fl pre field fv post fullName name ty in0 pre' in1 value
      Hf Hk Hc Hfl Hnil Hpre Hget.
    rewrite decodeFields_app, Hpre. simpl.
    rewrite (decodeMember_scalar rec in0 fl field fv fullName name ty) by done.
    rewrite Hget, setField_unsupported_panics by done. reflexivity.
  - intros rec in_ fl field fv fullName name ty in1 value Hf Hk _ Hget.
    rewrite (decodeMember_scalar rec in_ fl field fv fullName name ty) by done.
    rewrite Hget. reflexivity.
Qed.

(** ** The name path and the recursion stack *)

Lemma pathOf_push (stack : list bytes) (name : bytes) :
  pathOf (stack ++ [name]) = appendWithDelimiter (pathOf stack) name.
Proof.
  unfold pathOf, appendWithDelimiter.
  rewrite map_app, concat_app. simpl. by rewrite app_nil_r, app_assoc.
Qed.

(** One turn of the loop with the buffer is the turn with the stack. *)
Lemma decodeMember_at rec recAt in_ fl field fv stack :
  (forall in' fl' stack', rec in' fl' fv (pathOf stack') = recAt in' fl' fv stack') ->
  ('(in1, fv', err, _) ← decodeMember rec in_ fl field fv (pathOf stack);
   Return (in1, fv', err))
  = decodeMemberAt recAt in_ fl field fv stack.
Proof.
  intros Hrec. unfold decodeMember, decodeMemberAt.
  destruct (findInTag field) as [[name ty] ok].
  destruct ok; simpl; [|reflexivity].
  destruct (bool_decide (Kind_of fv = reflect.Struct)).
  - rewrite <- pathOf_push, Hrec.
    destruct (recAt _ _ _ _) as [[[in1 fv'] [e|]]|]; simpl; try reflexivity.
    rewrite pathOf_push, pop_append. reflexivity.
  - destruct (getValue _ _ _) as [[in1 value] ok].
    destruct ok; simpl; [|reflexivity].
    destruct (setField _ _ _) as [[fv' err]|]; reflexivity.
Qed.

Lemma decodeFields_at rec recAt fields :
  Forall (fun member => forall in' fl' stack',
            rec in' fl' member.2 (pathOf stack') = recAt in' fl' member.2 stack') fields ->
  forall in_ fl stack,
    decodeFields rec in_ fl fields (pathOf stack) = decodeFieldsAt recAt in_ fl fields stack.
Proof.
  induction 1 as [|[field fv] rest Hfv _ IH]; intros in_ fl stack; [reflexivity|].
  rewrite decodeFields_cons. simpl decodeFieldsAt.
  rewrite <- (decodeMember_at rec recAt in_ fl field fv stack Hfv).
  destruct (decodeMember rec in_ fl field fv (pathOf stack))
    as [[[[in1 fv'] [e|]] fullName']|]; simpl; try reflexivity.
  by rewrite IH.
Qed.

Lemma decode_decodeAt (v : Value) :
  forall in_ fl stack, decode in_ fl v (pathOf stack) = decodeAt in_ fl v stack.
Proof.
  induction v as [b|k n|k n|k bits|s|isNil elem IH|fields IH|k] using Value_nested_ind;
    intros in_ fl stack; try reflexivity.
  - simpl. by rewrite IH.
  - simpl. by rewrite (decodeFields_at decode decodeAt fields IH).
Qed.

(** C8: the walk that appends to the name buffer and cuts it back is the walk
    that looks every member up under the path of the records it is inside of
    at that moment, so no member sees anything left behind by a member
    before it; a record annotated query:"name" with members query:"first"
    and query:"last" is filled from the keys "name.first" and "name.last". *)
Theorem name_path_mirrors_stack :
  (forall v in_ fl stack, decode in_ fl v (pathOf stack) = decodeAt in_ fl v stack)
  /\ (forall fullName name,
       popWithDelimiter (appendWithDelimiter fullName name) name = Return fullName)
  /\ (forall query,
       query = [("name.first", ["John"]); ("name.last", ["Doe"])] ->
       walkDestination (GET query) (VPtr false (VStruct
         [(exported "Name" [("query", "name")], VStruct
            [(exported "First" [("query", "first")], VString "");
             (exported "Last" [("query", "last")], VString "")])]))
       = Return (GET query, VPtr false (VStruct
         [(exported "Name" [("query", "name")], VStruct
            [(exported "First" [("query", "first")], VString "John");
             (exported "Last" [("query", "last")], VString "Doe")])]), None)).
Proof.
  split; [|split].
  - intros v. apply decode_decodeAt.
  - apply pop_append.
  - intros query ->. vm_compute. reflexivity.
Qed.

(** ** Reading the query values back *)

Lemma getValue_query (in_ : decodeIn) (name : bytes) :
  getValue in_ name tagTypeQuery =
    (mkDecodeIn (r in_) (Some (queryTable in_)) (parsedCookies in_),
     default "" (firstValue (queryTable in_) (bytesString name)),
     bool_decide (is_Some (firstValue (queryTable in_) (bytesString name)))).
Proof.
  unfold getValue, firstValue, queryTable.
  destruct (queryVals in_) as [q|];
    (destruct (_ !! bytesString name) as [[|v vs]|]; reflexivity).
Qed.






(** ** More on annotations and resolvers *)

Lemma nonEmptyTag_Some (t : StructField) (key tag : string) :
  nonEmptyTag t key = Some tag -> Tag_Lookup (Tag t) key = Some tag /\ tag <> "".
Proof.
  unfold nonEmptyTag. destruct (Tag_Lookup (Tag t) key) as [tag'|]; [|discriminate].
  destruct (bool_decide_reflect (tag' = "")); [discriminate|].
  intros [= ->]. done.
Qed.

Lemma stringBytes_nil (s : string) : stringBytes s = [] -> s = "".
Proof. by destruct s. Qed.

Lemma findCookieVal_hit (cookies : list Cookie) (name value : string) :
  findCookieVal cookies name = (value, true) ->
  exists c, c ∈ cookies /\ Cookie_Name c = name /\ Cookie_Value c = value.
Proof.
  induction cookies as [|c cookies IH]; simpl; [discriminate|].
  destruct (bool_decide_reflect (Cookie_Name c = name)) as [Hn|Hn].
  - intros [= <-]. exists c. split; [left|done].
  - intros H. destruct (IH H) as (c' & Hin & Hc'). exists c'. split; [by right|done].
Qed.

Lemma findCookieVal_miss (cookies : list Cookie) (name value : string) :
  findCookieVal cookies name = (value, false) ->
  Forall (fun c => Cookie_Name c <> name) cookies.
Proof.
  induction cookies as [|c cookies IH]; simpl; [by constructor|].
  destruct (bool_decide_reflect (Cookie_Name c = name)) as [Hn|Hn]; [discriminate|].
  intros H. constructor; [done|by apply IH].
Qed.

Lemma findCookieVal_app_miss (cookies : list Cookie) (c : Cookie) (name value : string) :
  findCookieVal cookies name = (value, false) ->
  Cookie_Name c = name ->
  findCookieVal (cookies ++ [c]) name = (Cookie_Value c, true).
Proof.
  intros Hmiss Hc. induction cookies as [|c' cookies IH]; simpl in *.
  - by rewrite bool_decide_eq_true_2.
  - destruct (bool_decide (Cookie_Name c' = name)); [discriminate|]. by apply IH.
Qed.

Lemma Request_Cookie_name (req : Request) (name : string) (c : Cookie) :
  Request_Cookie req name = Some c -> Cookie_Name c = name /\ c ∈ Cookies req.
Proof.
  unfold Request_Cookie. destruct (bool_decide (name = "")); [discriminate|].
  intros H. apply head_Some_elem_of in H. by apply list_elem_of_filter in H.
Qed.

(** The request of a decode context never changes. *)
Lemma getValue_request in_ name ty in' value ok :
  getValue in_ name ty = (in', value, ok) -> r in' = r in_.
Proof.
  destruct ty; simpl.
  - by intros [= <- _ _].
  - destruct (_ !! _) as [[|v vs]|]; by intros [= <- _ _].
  - destruct (currentPathLookuper _ _). by intros [= <- _ _].
  - by intros [= <- _ _].
  - destruct (findCookieVal _ _) as [cv []]; [by intros [= <- _ _]|].
    destruct (Request_Cookie _ _); by intros [= <- _ _].
Qed.

Lemma getValue_coherent in_ name ty in' value ok :
  coherent in_ ->
  getValue in_ name ty = (in', value, ok) ->
  coherent in' /\ (value, ok) = resolve (r in_) (bytesString name) ty.
Proof.
  intros [Hq Hc]. destruct ty; simpl.
  - intros [= <- <- <-]. done.
  - assert (match queryVals in_ with
            | Some q => q
            | None => URL_Query (r in_)
            end = URL_Query (r in_)) as ->.
    { by destruct Hq as [->| ->]. }
    destruct (_ !! _) as [[|v vs]|]; intros [= <- <- <-];
      (split; [split; [by right|done]|done]).
  - destruct (currentPathLookuper _ _) as [s b]. intros [= <- <- <-]. done.
  - intros [= <- <- <-]. done.
  - destruct (findCookieVal _ _) as [cv []] eqn:Hfind.
    + intros [= <- <- <-]. split; [done|].
      apply findCookieVal_hit in Hfind as (c & Hin & Hname & Hval).
      rewrite Forall_forall in Hc. specialize (Hc c Hin).
      rewrite Hname in Hc. by rewrite Hc, Hval.
    + destruct (Request_Cookie _ _) as [cookie|] eqn:Hreq; intros [= <- <- <-];
        [|done].
      split; [|done]. split; [done|]. simpl.
      apply Forall_app. split; [done|]. constructor; [|constructor].
      apply Request_Cookie_name in Hreq as Hname. destruct Hname as [-> _]. done.
Qed.

(** X2: the caches of a decode context never change an answer. In a context
    whose caches come from its request, getValue returns what the request
    itself holds under the name, for each of the four kinds of annotation,
    and leaves a context whose caches again come from that request. *)
Theorem getValue_cache_transparent in_ name ty in' value ok :
  coherent in_ ->
  getValue in_ name ty = (in', value, ok) ->
  (value, ok) = resolve (r in_) (bytesString name) ty
  /\ r in' = r in_
  /\ coherent in'.
Proof.
  intros Hco Hget. destruct (getValue_coherent _ _ _ _ _ _ Hco Hget) as [Hco' Hres].
  split; [done|]. split; [|done]. by apply getValue_request in Hget.
Qed.

(** X3: a cookie lookup that finds the cookie records it, so that the same
    lookup asked again gives the same value and changes nothing more; a
    lookup that finds no cookie records nothing; and the names of the
    recorded cookies stay pairwise different. *)
Theorem cookie_cache_stable in_ name in' value :
  (getValue in_ name tagTypeCookie = (in', value, true) ->
   getValue in' name tagTypeCookie = (in', value, true))
  /\ (getValue in_ name tagTypeCookie = (in', value, false) -> in' = in_)
  /\ (forall ok,
        NoDup (map Cookie_Name (parsedCookies in_)) ->
        getValue in_ name tagTypeCookie = (in', value, ok) ->
        NoDup (map Cookie_Name (parsedCookies in'))).
Proof.
  simpl. split; [|split].
  - destruct (findCookieVal (parsedCookies in_) _) as [cv []] eqn:Hfind.
    + intros [= <- <-]. by rewrite Hfind.
    + destruct (Request_Cookie _ _) as [cookie|] eqn:Hreq; [|discriminate].
      intros [= <- <-]. simpl.
      apply Request_Cookie_name in Hreq as Hname. destruct Hname as [Hname _].
      by rewrite (findCookieVal_app_miss _ cookie _ _ Hfind Hname).
  - destruct (findCookieVal (parsedCookies in_) _) as [cv []]; [discriminate|].
    destruct (Request_Cookie _ _); [discriminate|]. by intros [= <- _].
  - intros ok Hnodup.
    destruct (findCookieVal (parsedCookies in_) _) as [cv []] eqn:Hfind.
    + by intros [= <- _ _].
    + destruct (Request_Cookie _ _) as [cookie|] eqn:Hreq; intros [= <- _ _]; [|done].
      simpl. rewrite map_app. simpl.
      apply NoDup_app. split; [done|]. split; [|apply NoDup_singleton].
      intros x Hx Hin. apply list_elem_of_singleton in Hin as ->.
      apply list_elem_of_fmap in Hx as (c & Hc & Hcin).
      apply findCookieVal_miss in Hfind. rewrite Forall_forall in Hfind.
      apply Request_Cookie_name in Hreq as [Hname _].
      apply (Hfind c Hcin). congruence.
Qed.

(** ** What the walk keeps *)

(** A property of decode contexts that every lookup keeps is kept by one
    turn of the loop, by the loop and by the walk. *)
Section ContextInvariant.

Variable I : decodeIn -> Prop.
Hypothesis getValue_keeps : forall in_ name ty in' value ok,
  I in_ -> getValue in_ name ty = (in', value, ok) -> I in'.

Lemma decodeMember_keeps rec in_ fl field fv fullName in' fv' err fullName' :
  (forall in1 fl1 fn1 in2 v2 e2,
     I in1 -> rec in1 fl1 fv fn1 = Return (in2, v2, e2) -> I in2) ->
  I in_ ->
  decodeMember rec in_ fl field fv fullName = Return (in', fv', err, fullName') ->
  I in'.
Proof.
  intros Hrec HI. unfold decodeMember.
  destruct (findInTag field) as [[name ty] ok].
  destruct ok; simpl; [|by intros [= <- _ _ _]].
  destruct (bool_decide (Kind_of fv = reflect.Struct)).
  - destruct (rec _ _ _ _) as [[[in1 fv1] [e|]]|] eqn:Hr; simpl; try discriminate.
    + intros [= <- _ _ _]. by eapply Hrec.
    + destruct (popWithDelimiter _ _); simpl; [|discriminate].
      intros [= <- _ _ _]. by eapply Hrec.
  - destruct (getValue _ _ _) as [[in1 value] ok] eqn:Hget.
    apply getValue_keeps in Hget; [|done].
    destruct ok; simpl; [|by intros [= <- _ _ _]].
    destruct (setField _ _ _) as [[fv1 e]|]; simpl; [|discriminate].
    by intros [= <- _ _ _].
Qed.

Lemma decodeFields_keeps rec fields :
  Forall (fun member => forall in1 fl1 fn1 in2 v2 e2,
            I in1 -> rec in1 fl1 member.2 fn1 = Return (in2, v2, e2) -> I in2) fields ->
  forall in_ fl fullName in' fields' err,
    I in_ ->
    decodeFields rec in_ fl fields fullName = Return (in', fields', err) ->
    I in'.
Proof.
  induction 1 as [|[field fv] rest Hfv _ IH]; intros in_ fl fullName in' fields' err HI.
  - by intros [= <- _ _].
  - simpl in Hfv. simpl.
    destruct (decodeMember rec in_ fl field fv fullName)
      as [[[[in1 fv1] e] fullName1]|] eqn:Hm; simpl; [|discriminate].
    apply decodeMember_keeps in Hm; [|done..].
    destruct e as [e|]; [by intros [= <- _ _]|].
    destruct (decodeFields rec in1 fl rest fullName1) as [[[in2 rest'] e']|] eqn:Hl;
      simpl; [|discriminate].
    intros [= <- _ _]. by eapply IH.
Qed.

Lemma decode_keeps (v : Value) :
  forall in_ fl fullName in' v' err,
    I in_ -> decode in_ fl v fullName = Return (in', v', err) -> I in'.
Proof.
  induction v as [b|k n|k n|k bits|s|isNil elem IH|fields IH|k] using Value_nested_ind;
    intros in_ fl fullName in' v' err HI; simpl; try by intros [= <- _ _].
  - destruct (isNil && negb (assignable fl)); [discriminate|].
    destruct (decode _ _ elem _) as [[[in1 e1] err1]|] eqn:Hd; simpl; [|discriminate].
    intros [= <- _ _]. by eapply IH.
  - destruct (decodeFields _ _ _ _ _) as [[[in1 f1] err1]|] eqn:Hd; simpl; [|discriminate].
    intros [= <- _ _]. by eapply (decodeFields_keeps decode fields IH).
Qed.

End ContextInvariant.

(** X4: over a whole walk the decode context keeps its request, and caches
    that come from that request still do so when the walk returns, with or
    without an error. *)
Theorem decode_keeps_context (v : Value) in_ fl fullName in' v' err :
  decode in_ fl v fullName = Return (in', v', err) ->
  r in' = r in_ /\ (coherent in_ -> coherent in').
Proof.
  intros Hdec. split.
  - apply (decode_keeps (fun in1 => r in1 = r in_)) in Hdec; [done| |done].
    intros in1 name ty in2 value ok Hr Hget.
    apply getValue_request in Hget. congruence.
  - intros Hco. apply (decode_keeps coherent) in Hdec; [done| |done].
    intros in1 name ty in2 value ok Hc Hget.
    by destruct (getValue_coherent _ _ _ _ _ _ Hc Hget).
Qed.



(** ** The errors and panics of the walk *)

Lemma setField_error (fl : flagRO) (v : Value) (value : string) v' e :
  setField fl v value = Return (v', Some e) -> isWalkError e = true.
Proof.
  revert fl v'.
  induction v as [b|k n|k n|k bits|s|isNil elem IH|fields _|k] using Value_nested_ind;
    intros fl v'; simpl.
  - destruct (assignable fl); discriminate.
  - destruct (ParseInt value) as [n' [err|]]; [by intros [= _ <-]|].
    destruct (assignable fl); discriminate.
  - destruct k; try by intros [= _ <-].
    all: destruct (ParseUint value) as [n' [err|]]; [by intros [= _ <-]|].
    all: destruct (assignable fl); discriminate.
  - destruct (ParseFloat value) as [n' [err|]]; [by intros [= _ <-]|].
    destruct (assignable fl); discriminate.
  - destruct (assignable fl); discriminate.
  - destruct (isNil && negb (assignable fl)); [discriminate|].
    destruct (setField _ elem value) as [[elem' err]|] eqn:Hs; simpl; [|discriminate].
    intros [= _ ->]. by eapply IH.
  - by intros [= _ <-].
  - by intros [= _ <-].
Qed.

Lemma decodeMember_error rec in_ fl field fv fullName in' fv' e fullName' :
  (forall in1 fl1 fn1 in2 v2 e2,
     rec in1 fl1 fv fn1 = Return (in2, v2, Some e2) -> isWalkError e2 = true) ->
  decodeMember rec in_ fl field fv fullName = Return (in', fv', Some e, fullName') ->
  isWalkError e = true.
Proof.
  intros Hrec. unfold decodeMember.
  destruct (findInTag field) as [[name ty] ok].
  destruct ok; simpl; [|discriminate].
  destruct (bool_decide (Kind_of fv = reflect.Struct)).
  - destruct (rec _ _ _ _) as [[[in1 fv1] [e1|]]|] eqn:Hr; simpl; try discriminate.
    + intros [= _ _ <- _]. by eapply Hrec.
    + destruct (popWithDelimiter _ _); simpl; discriminate.
  - destruct (getValue _ _ _) as [[in1 value] ok].
    destruct ok; simpl; [|discriminate].
    destruct (setField _ _ _) as [[fv1 e1]|] eqn:Hs; simpl; [|discriminate].
    intros [= _ _ -> _]. by eapply setField_error.
Qed.

Lemma decodeFields_error rec fields :
  Forall (fun member => forall in1 fl1 fn1 in2 v2 e2,
            rec in1 fl1 member.2 fn1 = Return (in2, v2, Some e2) ->
            isWalkError e2 = true) fields ->
  forall in_ fl fullName in' fields' e,
    decodeFields rec in_ fl fields fullName = Return (in', fields', Some e) ->
    isWalkError e = true.
Proof.
  induction 1 as [|[field fv] rest Hfv _ IH]; intros in_ fl fullName in' fields' e.
  - discriminate.
  - simpl in Hfv. simpl.
    destruct (decodeMember rec in_ fl field fv fullName)
      as [[[[in1 fv1] [e1|]] fullName1]|] eqn:Hm; simpl; [| |discriminate].
    + intros [= _ _ <-]. by eapply decodeMember_error.
    + destruct (decodeFields rec in1 fl rest fullName1) as [[[in2 rest'] e']|] eqn:Hl;
        simpl; [|discriminate].
      intros [= _ _ ->]. by eapply IH.
Qed.

Lemma decode_error (v : Value) :
  forall in_ fl fullName in' v' e,
    decode in_ fl v fullName = Return (in', v', Some e) -> isWalkError e = true.
Proof.
  induction v as [b|k n|k n|k bits|s|isNil elem IH|fields IH|k] using Value_nested_ind;
    intros in_ fl fullName in' v' e; simpl; try by intros [= _ _ <-].
  - destruct (isNil && negb (assignable fl)); [discriminate|].
    destruct (decode _ _ elem _) as [[[in1 e1] err1]|] eqn:Hd; simpl; [|discriminate].
    intros [= _ _ ->]. by eapply IH.
  - destruct (decodeFields _ _ _ _ _) as [[[in1 f1] err1]|] eqn:Hd; simpl; [|discriminate].
    intros [= _ _ ->]. by eapply (decodeFields_error decode fields IH).
Qed.

(** X6: every error of the walk is an UnsupportedType or an InvalidNumber
    error; so, when the JSON step is not taken, Unmarshal returns
    InvalidDestination exactly when the destination is not a non-nil
    pointer. On a destination that is not a non-nil pointer it returns that
    error, with the request and the destination as they were; and whenever
    it returns an error, that error is InvalidDestination only on such a
    destination. *)
Theorem walk_error_kinds :
  (forall v in_ fl fullName in' v' e,
     decode in_ fl v fullName = Return (in', v', Some e) -> isWalkError e = true)
  /\ (forall req dest,
       Header_Get (Header req) "Content-Type" <> "application/json" ->
       nonNilPointer dest = false ->
       Unmarshal req dest = Return (req, dest, Some InvalidDestination))
  /\ (forall req dest req' dest' e,
       Header_Get (Header req) "Content-Type" <> "application/json" ->
       Unmarshal req dest = Return (req', dest', Some e) ->
       (e = InvalidDestination <-> nonNilPointer dest = false)).
Proof.
  split; [apply decode_error|split].
  - intros req dest Hct Hdest. unfold Unmarshal.
    rewrite bool_decide_eq_false_2 by done. unfold walkDestination.
    by destruct dest as [| | | | |[] v| |].
  - intros req dest req' dest' e Hct. unfold Unmarshal.
    rewrite bool_decide_eq_false_2 by done. unfold walkDestination.
    destruct dest as [| | | | |[] v| |]; try (intros [= _ _ <-]; done).
    destruct (decode _ _ v _) as [[[in1 v1] err1]|] eqn:Hd; simpl; [|discriminate].
    intros [= _ _ ->]. apply decode_error in Hd. split; [|done].
    intros ->. discriminate.
Qed.

Lemma setField_flagRW_returns (v : Value) (value : string) :
  exists v' err, setField flagRW v value = Return (v', err).
Proof.
  induction v as [b|k n|k n|k bits|s|isNil elem IH|fields _|k] using Value_nested_ind;
    simpl; eauto.
  - destruct (ParseInt value) as [n' [err|]]; eauto.
  - destruct k; eauto; destruct (ParseUint value) as [n' [err|]]; eauto.
  - destruct (ParseFloat value) as [n' [err|]]; eauto.
  - rewrite andb_false_r. unfold elemFlag. destruct IH as (elem' & err & ->).
    simpl. eauto.
Qed.

Lemma fieldFlag_exported (field : StructField) :
  IsExported field = true -> fieldFlag flagRW field = flagRW.
Proof. unfold fieldFlag. by intros ->. Qed.

Lemma decodeFields_returns fields :
  Forall (fun member => forall in1 fn1,
            exportedRecord member.2 = true ->
            exists in2 v2 e2, decode in1 flagRW member.2 fn1 = Return (in2, v2, e2)) fields ->
  forall in_ fullName,
    exportedRecord (VStruct fields) = true ->
    exists in' fields' err,
      decodeFields decode in_ flagRW fields fullName = Return (in', fields', err).
Proof.
  induction 1 as [|[field fv] rest Hfv _ IH]; intros in_ fullName Hexp.
  - simpl. eauto.
  - simpl in Hfv. rewrite decodeFields_cons.
    change (exportedRecord (VStruct ((field, fv) :: rest)))
      with (match findInTag field with
            | (_, _, true) =>
                IsExported field
                && (if bool_decide (Kind_of fv = reflect.Struct)
                    then exportedRecord fv else true)
            | _ => true
            end && exportedRecord (VStruct rest)) in Hexp.
    apply andb_true_iff in Hexp as [Hmember Hrest].
    assert (exists in1 fv1 e1 fullName1,
              decodeMember decode in_ flagRW field fv fullName
              = Return (in1, fv1, e1, fullName1)) as (in1 & fv1 & e1 & fullName1 & Hm).
    { unfold decodeMember.
      destruct (findInTag field) as [[name ty] ok].
      destruct ok; [|simpl; eauto]. cbn [negb].
      apply andb_true_iff in Hmember as [Hex Hnested].
      rewrite (fieldFlag_exported field Hex).
      destruct (bool_decide (Kind_of fv = reflect.Struct)).
      - destruct (Hfv in_ (appendWithDelimiter fullName name) Hnested)
          as (in2 & v2 & e2 & ->). simpl.
        destruct e2; [eauto|]. rewrite pop_append. simpl. eauto.
      - destruct (getValue _ _ _) as [[in2 value] ok].
        destruct ok; [|simpl; eauto]. cbn [negb].
        destruct (setField_flagRW_returns fv value) as (v2 & e2 & ->). simpl. eauto. }
    rewrite Hm. simpl. destruct e1; [eauto|].
    destruct (IH in1 fullName Hrest) as (in2 & rest' & e2 & ->). simpl. eauto.
Qed.

Lemma decode_returns (v : Value) :
  forall in_ fullName,
    exportedRecord v = true ->
    exists in' v' err, decode in_ flagRW v fullName = Return (in', v', err).
Proof.
  induction v as [b|k n|k n|k bits|s|isNil elem IH|fields IH|k] using Value_nested_ind;
    intros in_ fullName Hexp; simpl; eauto.
  - rewrite andb_false_r. unfold elemFlag.
    destruct (IH in_ fullName Hexp) as (in' & v' & err & ->). simpl. eauto.
  - destruct (decodeFields_returns fields IH in_ fullName Hexp)
      as (in' & fields' & err & ->). simpl. eauto.
Qed.

(** X7: on a destination none of whose annotated members is unexported,
    Unmarshal without the JSON step returns, with or without an error: it
    does not panic, whatever the request holds. *)
Theorem exported_destination_no_panic req dest :
  Header_Get (Header req) "Content-Type" <> "application/json" ->
  exportedRecord dest = true ->
  exists dest' err, Unmarshal req dest = Return (req, dest', err).
Proof.
  intros Hct Hexp. unfold Unmarshal. rewrite bool_decide_eq_false_2 by done.
  unfold walkDestination. destruct dest as [| | | | |[] v| |]; eauto.
  destruct (decode_returns v (mkDecodeIn req None []) [] Hexp) as (in' & v' & err & ->).
  simpl. eauto.
Qed.

(** ** Coercion, again *)

Lemma setField_Kind (fl : flagRO) (v : Value) (value : string) v' err :
  setField fl v value = Return (v', err) -> Kind_of v' = Kind_of v.
Proof.
  destruct v as [b|k n|k n|k bits|s|isNil elem|fields|k]; simpl.
  - destruct (assignable fl); [|discriminate]. by intros [= <- _].
  - destruct (ParseInt value) as [n' [e|]]; [by intros [= <- _]|].
    destruct (assignable fl); [|discriminate]. by intros [= <- _].
  - destruct k; try by intros [= <- _].
    all: destruct (ParseUint value) as [n' [e|]]; [by intros [= <- _]|].
    all: destruct (assignable fl); [|discriminate]; by intros [= <- _].
  - destruct (ParseFloat value) as [n' [e|]]; [by intros [= <- _]|].
    destruct (assignable fl); [|discriminate]. by destruct k; intros [= <- _].
  - destruct (assignable fl); [|discriminate]. by intros [= <- _].
  - destruct (isNil && negb (assignable fl)); [discriminate|].
    destruct (setField _ elem value) as [[elem' e]|]; simpl; [|discriminate].
    by intros [= <- _].
  - by intros [= <- _].
  - by intros [= <- _].
Qed.

Lemma setField_again (v : Value) :
  forall fl value v' err,
    setField fl v value = Return (v', err) -> setField fl v' value = Return (v', err).
Proof.
  induction v as [b|k n|k n|k bits|s|isNil elem IH|fields _|k] using Value_nested_ind;
    intros fl value v' err; simpl.
  - destruct (assignable fl) eqn:Hfl; [|discriminate].
    intros [= <- <-]. simpl. by rewrite Hfl.
  - destruct (ParseInt value) as [n' [e|]] eqn:Hp.
    + intros [= <- <-]. simpl. by rewrite Hp.
    + destruct (assignable fl) eqn:Hfl; [|discriminate].
      intros [= <- <-]. simpl. by rewrite Hp, Hfl.
  - destruct k; try (intros [= <- <-]; reflexivity).
    all: destruct (ParseUint value) as [n' [e|]] eqn:Hp;
      [intros [= <- <-]; simpl; by rewrite Hp|].
    all: destruct (assignable fl) eqn:Hfl; [|discriminate].
    all: intros [= <- <-]; simpl; by rewrite Hp, Hfl.
  - destruct (ParseFloat value) as [n' [e|]] eqn:Hp.
    + intros [= <- <-]. simpl. by rewrite Hp.
    + destruct (assignable fl) eqn:Hfl; [|discriminate].
      intros [= <- <-]. simpl. by rewrite Hp, Hfl.
  - destruct (assignable fl) eqn:Hfl; [|discriminate].
    intros [= <- <-]. simpl. by rewrite Hfl.
  - destruct (isNil && negb (assignable fl)); [discriminate|].
    destruct (setField _ elem value) as [[elem' e]|] eqn:Hs; simpl; [|discriminate].
    intros [= <- <-]. simpl. by rewrite (IH _ _ _ _ Hs).
  - intros [= <- <-]. reflexivity.
  - intros [= <- <-]. reflexivity.
Qed.

Lemma setField_failure (v : Value) :
  forall fl value v' e,
    setField fl v value = Return (v', Some e) -> v' = allocated v.
Proof.
  induction v as [b|k n|k n|k bits|s|isNil elem IH|fields _|k] using Value_nested_ind;
    intros fl value v' e; simpl.
  - destruct (assignable fl); discriminate.
  - destruct (ParseInt value) as [n' [err|]]; [by intros [= <- _]|].
    destruct (assignable fl); discriminate.
  - destruct k; try by intros [= <- _].
    all: destruct (ParseUint value) as [n' [err|]]; [by intros [= <- _]|].
    all: destruct (assignable fl); discriminate.
  - destruct (ParseFloat value) as [n' [err|]]; [by intros [= <- _]|].
    destruct (assignable fl); discriminate.
  - destruct (assignable fl); discriminate.
  - destruct (isNil && negb (assignable fl)); [discriminate|].
    destruct (setField _ elem value) as [[elem' err]|] eqn:Hs; simpl; [|discriminate].
    intros [= <- ->]. by rewrite (IH _ _ _ _ Hs).
  - by intros [= <- _].
  - by intros [= <- _].
Qed.

(** X8: when coercion returns an error, the member is what it was except
    that every nil pointer on the way to the scalar has been set: a nil
    pointer to an int that is given a text that is no number comes back as a
    pointer to zero, with the error. *)
Theorem setField_failure_allocates (fl : flagRO) (v : Value) (value : string) v' e :
  setField fl v value = Return (v', Some e) ->
  v' = allocated v
  /\ pointee v' = pointee v
  /\ (forall elem, v = VPtr true elem -> exists elem', v' = VPtr false elem').
Proof.
  intros Hset. apply setField_failure in Hset as ->.
  split; [done|]. split.
  - induction v; simpl; auto.
  - intros elem ->. simpl. eauto.
Qed.

Lemma parseDigits_bounds (cs : bytes) :
  forall n0 n, 0 <= n0 <= maxUint64 -> parseDigits cs n0 = inl n -> 0 <= n <= maxUint64.
Proof.
  induction cs as [|c cs IH]; intros n0 n Hn0; simpl.
  - by intros [= <-].
  - destruct (isDigit c) eqn:Hd; [|discriminate].
    destruct (maxUint64 `div` 10 + 1 <=? n0); [discriminate|].
    destruct (Z.ltb_spec maxUint64 (n0 * 10 + digitVal c)); [discriminate|].
    apply IH. split; [|done].
    unfold isDigit in Hd. apply andb_true_iff in Hd as [Hlo _].
    apply Z.leb_le in Hlo. unfold digitVal. lia.
Qed.

Lemma ParseUint_range (s : string) (n : Z) :
  ParseUint s = (n, None) -> 0 <= n <= maxUint64.
Proof.
  unfold ParseUint. destruct (stringBytes s) as [|c cs]; [discriminate|].
  destruct (parseDigits (c :: cs) 0) as [n'|[]] eqn:Hp; [|discriminate..].
  intros [= <-]. apply (parseDigits_bounds _ 0 n') in Hp; [done|].
  unfold maxUint64. lia.
Qed.

Lemma ParseInt_range (s : string) (n : Z) :
  ParseInt s = (n, None) -> - 2 ^ 63 <= n < 2 ^ 63.
Proof.
  unfold ParseInt. destruct (stringBytes s) as [|c cs]; [discriminate|].
  destruct (ParseUint _) as [un [e|]] eqn:Hu.
  - destruct (Err e); [discriminate|]. destruct (bool_decide (c = "-"%char)); discriminate.
  - apply ParseUint_range in Hu.
    destruct (bool_decide (c = "-"%char)); simpl.
    + destruct (Z.ltb_spec (2 ^ 63) un); [discriminate|]. intros [= <-]. lia.
    + destruct (Z.leb_spec (2 ^ 63) un); [discriminate|]. intros [= <-]. lia.
Qed.

Lemma wrapSigned_small (w n : Z) :
  0 < w -> - 2 ^ (w - 1) <= n < 2 ^ (w - 1) -> wrapSigned w n = n.
Proof.
  intros Hw Hn. unfold wrapSigned.
  assert (2 ^ w = 2 * 2 ^ (w - 1)) as Hpow.
  { rewrite <- Z.pow_succ_r by lia. f_equal. lia. }
  rewrite Z.mod_small by lia. lia.
Qed.

Lemma wrapUnsigned_small (w n : Z) :
  0 <= n < 2 ^ w -> wrapUnsigned w n = n.
Proof. intros Hn. unfold wrapUnsigned. by rewrite Z.mod_small. Qed.

(** X9: a number that fits the member is stored as it is: a text that
    parses to a number inside the range of an integer member of any width
    leaves exactly that number in it, and the 64-bit kinds int, int64, uint
    and uint64 store every text that parses without any change. *)
Theorem setField_integer_exact (raw : string) (old : Z) :
  (forall k n, ParseInt raw = (n, None) ->
     - 2 ^ (intBits k - 1) <= n < 2 ^ (intBits k - 1) ->
     setField flagRW (VInt k old) raw = Return (VInt k n, None))
  /\ (forall k n, k <> KUintptr -> ParseUint raw = (n, None) ->
     n < 2 ^ uintBits k ->
     setField flagRW (VUint k old) raw = Return (VUint k n, None))
  /\ (forall k n, k = KInt \/ k = KInt64 -> ParseInt raw = (n, None) ->
     setField flagRW (VInt k old) raw = Return (VInt k n, None))
  /\ (forall k n, k = KUint \/ k = KUint64 -> ParseUint raw = (n, None) ->
     setField flagRW (VUint k old) raw = Return (VUint k n, None)).
Proof.
  split; [|split; [|split]].
  - intros k n Hp Hn. rewrite (setField_int_ok k old raw n Hp).
    rewrite wrapSigned_small; [done| |done]. by destruct k.
  - intros k n Hk Hp Hn. rewrite (setField_uint_ok k old raw n Hk Hp).
    rewrite wrapUnsigned_small; [done|]. apply ParseUint_range in Hp. lia.
  - intros k n Hk Hp. rewrite (setField_int_ok k old raw n Hp).
    apply ParseInt_range in Hp.
    rewrite wrapSigned_small; [done|by destruct k|]. by destruct Hk as [-> | ->].
  - intros k n Hk Hp.
    rewrite (setField_uint_ok k old raw n); [|by destruct Hk as [-> | ->]|done].
    apply ParseUint_range in Hp. unfold maxUint64 in Hp.
    rewrite wrapUnsigned_small; [done|]. destruct Hk as [-> | ->]; simpl; lia.
Qed.

(** ** Decoding a second time *)

Lemma decode_Kind in_ fl v fullName in' v' err :
  decode in_ fl v fullName = Return (in', v', err) -> Kind_of v' = Kind_of v.
Proof.
  destruct v as [b|k n|k n|k bits|s|isNil elem|fields|k]; simpl;
    try by intros [= _ <- _].
  - destruct (isNil && negb (assignable fl)); [discriminate|].
    destruct (decode _ _ elem _) as [[[in1 e1] err1]|]; simpl; [|discriminate].
    by intros [= _ <- _].
  - destruct (decodeFields _ _ _ _ _) as [[[in1 f1] err1]|]; simpl; [|discriminate].
    by intros [= _ <- _].
Qed.

(** The turn of the loop on a member that is a struct. *)
Lemma decodeMember_struct rec in_ fl field fv fullName name ty :
  findInTag field = (name, ty, true) ->
  Kind_of fv = reflect.Struct ->
  decodeMember rec in_ fl field fv fullName =
    '(in1, fv1, err) ← rec in_ (fieldFlag fl field) fv (appendWithDelimiter fullName name);
    Return (in1, fv1, err,
            match err with
            | Some _ => appendWithDelimiter fullName name
            | None => fullName
            end).
Proof.
  intros Hf Hk. unfold decodeMember. rewrite Hf. cbn [negb].
  rewrite bool_decide_eq_true_2 by done.
  destruct (rec _ _ _ _) as [[[in1 fv1] [e|]]|]; simpl; try reflexivity.
  by rewrite pop_append.
Qed.

Lemma decodeMember_again rec in_ fl field fv fullName in' fv' err fullName' :
  (forall in1 fl1 fn1 in2 v2 e2,
     rec in1 fl1 fv fn1 = Return (in2, v2, e2) ->
     Kind_of v2 = Kind_of fv /\ rec in1 fl1 v2 fn1 = Return (in2, v2, e2)) ->
  decodeMember rec in_ fl field fv fullName = Return (in', fv', err, fullName') ->
  decodeMember rec in_ fl field fv' fullName = Return (in', fv', err, fullName').
Proof.
  intros Hrec.
  destruct (findInTag field) as [[name ty] ok] eqn:Hf.
  destruct ok.
  - destruct (decide (Kind_of fv = reflect.Struct)) as [Hk|Hk].
    + rewrite (decodeMember_struct rec in_ fl field fv fullName name ty Hf Hk).
      destruct (rec _ _ fv _) as [[[in1 fv1] e1]|] eqn:Hr; simpl; [|discriminate].
      destruct (Hrec _ _ _ _ _ _ Hr) as [Hkind Hr'].
      intros [= <- <- <- <-].
      rewrite (decodeMember_struct rec in_ fl field fv1 fullName name ty Hf)
        by congruence.
      rewrite Hr'. reflexivity.
    + rewrite (decodeMember_scalar rec in_ fl field fv fullName name ty Hf Hk).
      destruct (getValue _ _ _) as [[in1 value] ok] eqn:Hget.
      destruct ok.
      * destruct (setField _ fv value) as [[fv1 e1]|] eqn:Hs; simpl; [|discriminate].
        intros [= <- <- <- <-].
        rewrite (decodeMember_scalar rec in_ fl field fv1 fullName name ty Hf)
          by (rewrite (setField_Kind _ _ _ _ _ Hs); done).
        rewrite Hget. by rewrite (setField_again _ _ _ _ _ Hs).
      * intros [= <- <- <- <-].
        rewrite (decodeMember_scalar rec in_ fl field fv fullName name ty Hf Hk).
        by rewrite Hget.
  - rewrite (decodeMember_untagged rec in_ fl field fv fullName name ty Hf).
    intros [= <- <- <- <-].
    apply (decodeMember_untagged rec in_ fl field fv fullName name ty Hf).
Qed.

Lemma decodeFields_again rec fields :
  Forall (fun member => forall in1 fl1 fn1 in2 v2 e2,
            rec in1 fl1 member.2 fn1 = Return (in2, v2, e2) ->
            Kind_of v2 = Kind_of member.2
            /\ rec in1 fl1 v2 fn1 = Return (in2, v2, e2)) fields ->
  forall in_ fl fullName in' fields' err,
    decodeFields rec in_ fl fields fullName = Return (in', fields', err) ->
    decodeFields rec in_ fl fields' fullName = Return (in', fields', err).
Proof.
  induction 1 as [|[field fv] rest Hfv _ IH]; intros in_ fl fullName in' fields' err.
  - by intros [= <- <- <-].
  - simpl in Hfv. simpl decodeFields at 1.
    destruct (decodeMember rec in_ fl field fv fullName)
      as [[[[in1 fv1] e1] fullName1]|] eqn:Hm; simpl; [|discriminate].
    apply decodeMember_again in Hm; [|done].
    destruct e1 as [e1|].
    + intros [= <- <- <-]. simpl. rewrite Hm. reflexivity.
    + destruct (decodeFields rec in1 fl rest fullName1) as [[[in2 rest'] e']|] eqn:Hl;
        simpl; [|discriminate].
      intros [= <- <- <-]. simpl. rewrite Hm. simpl.
      rewrite (IH _ _ _ _ _ _ Hl). reflexivity.
Qed.

Lemma decode_again (v : Value) :
  forall in_ fl fullName in' v' err,
    decode in_ fl v fullName = Return (in', v', err) ->
    decode in_ fl v' fullName = Return (in', v', err).
Proof.
  induction v as [b|k n|k n|k bits|s|isNil elem IH|fields IH|k] using Value_nested_ind;
    intros in_ fl fullName in' v' err; simpl; try by intros [= <- <- <-].
  - destruct (isNil && negb (assignable fl)); [discriminate|].
    destruct (decode _ _ elem _) as [[[in1 e1] err1]|] eqn:Hd; simpl; [|discriminate].
    intros [= <- <- <-]. simpl. rewrite (IH _ _ _ _ _ _ Hd). reflexivity.
  - destruct (decodeFields _ _ _ _ _) as [[[in1 f1] err1]|] eqn:Hd; simpl; [|discriminate].
    intros [= <- <- <-]. simpl.
    rewrite (decodeFields_again decode fields) with (in' := in1) (fields' := f1)
      (err := err1); [reflexivity| |done].
    eapply Forall_impl; [exact IH|]. intros [field fv] Hfv in1' fl1 fn1 in2 v2 e2 Hr.
    split; [by apply decode_Kind in Hr|by apply Hfv].
Qed.

(** X10: the walk can be run again. When the walk over a destination has
    returned, with an error or without, the walk over the destination it
    left, for the same request, returns that same destination and that same
    error. *)
Theorem walk_again req dest req' dest' err :
  walkDestination req dest = Return (req', dest', err) ->
  walkDestination req' dest' = Return (req', dest', err).
Proof.
  intros Hwalk. pose proof (walkDestination_request _ _ _ _ _ Hwalk) as ->.
  revert Hwalk. unfold walkDestination.
  destruct dest as [| | | | |[] v| |]; try by intros [= <- <-].
  destruct (decode _ _ v _) as [[[in1 v1] err1]|] eqn:Hd; simpl; [|discriminate].
  intros [= <- <-]. by rewrite (decode_again _ _ _ _ _ _ _ Hd).
Qed.

(** ** Members that may not be set *)

Lemma fieldFlag_unexported (fl : flagRO) (field : StructField) :
  IsExported field = false -> assignable (fieldFlag fl field) = false.
Proof. unfold fieldFlag. intros ->. by destruct fl, (Anonymous field). Qed.

(** X11: an unexported member with an accepted annotation makes the walk
    panic as soon as it is given a value to store: a string or boolean member
    or a nil pointer when its resolver reports a value, whatever the value
    is, and after the members before it have been decoded. *)
Theorem unexported_member_panics rec in_ fl pre field fv post fullName name ty
    in0 pre' in1 value :
  IsExported field = false ->
  findInTag field = (name, ty, true) ->
  (exists s, fv = VString s) \/ (exists b, fv = VBool b) \/ (exists elem, fv = VPtr true elem) ->
  decodeFields rec in_ fl pre fullName = Return (in0, pre', None) ->
  getValue in0 (fullName ++ name) ty = (in1, value, true) ->
  decodeFields rec in_ fl (pre ++ (field, fv) :: post) fullName
    = Panics PanicNotAssignable.
Proof.
  intros Hex Hf Hfv Hpre Hget.
  rewrite decodeFields_app, Hpre. simpl.
  rewrite (decodeMember_scalar rec in0 fl field fv fullName name ty Hf);
    [|by destruct Hfv as [[s ->]|[[b ->]|[elem ->]]]].
  rewrite Hget. simpl.
  pose proof (fieldFlag_unexported fl field Hex) as Hfl.
  destruct Hfv as [[s ->]|[[b ->]|[elem ->]]]; simpl; by rewrite Hfl.
Qed.

(** ** Which keys of the query the walk reads *)

Lemma getValue_queryTable in_ name ty in' value ok :
  getValue in_ name ty = (in', value, ok) -> queryTable in' = queryTable in_.
Proof.
  unfold queryTable. destruct ty; simpl.
  - by intros [= <- _ _].
  - destruct (_ !! _) as [[|v vs]|]; by intros [= <- _ _].
  - destruct (currentPathLookuper _ _). by intros [= <- _ _].
  - by intros [= <- _ _].
  - destruct (findCookieVal _ _) as [cv []]; [by intros [= <- _ _]|].
    destruct (Request_Cookie _ _); by intros [= <- _ _].
Qed.

Lemma decode_queryTable v in_ fl fullName in' v' err :
  decode in_ fl v fullName = Return (in', v', err) -> queryTable in' = queryTable in_.
Proof.
  intros Hdec.
  apply (decode_keeps (fun in1 => queryTable in1 = queryTable in_)) in Hdec; [done| |done].
  intros in1 name ty in2 value ok Hq Hget.
  apply getValue_queryTable in Hget. congruence.
Qed.

(** Two contexts whose query tables give the same first value under the
    names of a member lead its turn of the loop to the same member and error,
    or to the same panic, and keep their tables. *)
Lemma decodeMember_query_local in1 in2 fl field fv fullName :
  (forall in1 in2 fl fullName,
     queryOnly fv = true ->
     (forall key, key ∈ queryNames fv fullName ->
        firstValue (queryTable in1) key = firstValue (queryTable in2) key) ->
     outcome (decode in1 fl fv fullName) = outcome (decode in2 fl fv fullName)) ->
  match findInTag field with
  | (_, tagTypeQuery, true) =>
      if bool_decide (Kind_of fv = reflect.Struct) then queryOnly fv else true
  | (_, _, true) => false
  | _ => true
  end = true ->
  (forall key,
     key ∈ match findInTag field with
           | (name, _, true) =>
               if bool_decide (Kind_of fv = reflect.Struct)
               then queryNames fv (appendWithDelimiter fullName name)
               else [bytesString (fullName ++ name)]
           | _ => []
           end ->
     firstValue (queryTable in1) key = firstValue (queryTable in2) key) ->
  match decodeMember decode in1 fl field fv fullName,
        decodeMember decode in2 fl field fv fullName with
  | Return (in1', fv1, e1, _), Return (in2', fv2, e2, _) =>
      fv1 = fv2 /\ e1 = e2
      /\ queryTable in1' = queryTable in1 /\ queryTable in2' = queryTable in2
  | Panics p1, Panics p2 => p1 = p2
  | _, _ => False
  end.
Proof.
  intros Hfv Hmember Hkeys.
  destruct (findInTag field) as [[name ty] ok] eqn:Hf.
  destruct ok.
  - destruct ty; try discriminate.
    destruct (decide (Kind_of fv = reflect.Struct)) as [Hk|Hk].
    + rewrite bool_decide_eq_true_2 in Hmember, Hkeys by done.
      rewrite !(decodeMember_struct decode _ fl field fv fullName name tagTypeQuery Hf Hk).
      specialize (Hfv in1 in2 (fieldFlag fl field) (appendWithDelimiter fullName name)
                    Hmember Hkeys).
      unfold outcome in Hfv.
      destruct (decode in1 _ fv _) as [[[in1' fv1] e1]|p1] eqn:Hd1;
        destruct (decode in2 _ fv _) as [[[in2' fv2] e2]|p2] eqn:Hd2;
        simpl in Hfv |- *; try discriminate Hfv.
      * injection Hfv as -> ->.
        apply decode_queryTable in Hd1, Hd2. done.
      * by injection Hfv.
    + rewrite bool_decide_eq_false_2 in Hkeys by done.
      rewrite !(decodeMember_scalar decode _ fl field fv fullName name tagTypeQuery Hf Hk).
      rewrite !getValue_query.
      rewrite (Hkeys (bytesString (fullName ++ name)))
        by (apply list_elem_of_singleton; reflexivity).
      destruct (bool_decide (is_Some _)); simpl; [|repeat split; reflexivity].
      destruct (setField _ fv _) as [[fv1 e]|]; simpl; repeat split; reflexivity.
  - rewrite !(decodeMember_untagged decode _ fl field fv fullName name ty Hf). done.
Qed.

Lemma decodeFields_query_local fields :
  Forall (fun member => forall in1 in2 fl fullName,
            queryOnly member.2 = true ->
            (forall key, key ∈ queryNames member.2 fullName ->
               firstValue (queryTable in1) key = firstValue (queryTable in2) key) ->
            outcome (decode in1 fl member.2 fullName)
            = outcome (decode in2 fl member.2 fullName)) fields ->
  forall in1 in2 fl fullName,
    queryOnly (VStruct fields) = true ->
    (forall key, key ∈ queryNames (VStruct fields) fullName ->
       firstValue (queryTable in1) key = firstValue (queryTable in2) key) ->
    outcome (decodeFields decode in1 fl fields fullName)
    = outcome (decodeFields decode in2 fl fields fullName).
Proof.
  induction 1 as [|[field fv] rest Hfv _ IH]; intros in1 in2 fl fullName Hq Hkeys;
    [reflexivity|].
  simpl in Hfv. rewrite !decodeFields_cons.
  change (queryOnly (VStruct ((field, fv) :: rest)))
    with (match findInTag field with
          | (_, tagTypeQuery, true) =>
              if bool_decide (Kind_of fv = reflect.Struct) then queryOnly fv else true
          | (_, _, true) => false
          | _ => true
          end && queryOnly (VStruct rest)) in Hq.
  change (queryNames (VStruct ((field, fv) :: rest)) fullName)
    with (match findInTag field with
          | (name, _, true) =>
              if bool_decide (Kind_of fv = reflect.Struct)
              then queryNames fv (appendWithDelimiter fullName name)
              else [bytesString (fullName ++ name)]
          | _ => []
          end ++ queryNames (VStruct rest) fullName) in Hkeys.
  apply andb_true_iff in Hq as [Hmember Hrest].
  pose proof (decodeMember_query_local in1 in2 fl field fv fullName Hfv Hmember) as Hm.
  destruct (decodeMember decode in1 fl field fv fullName) as [[[[in1' fv1] e1] fn1]|p1];
    destruct (decodeMember decode in2 fl field fv fullName) as [[[[in2' fv2] e2] fn2]|p2];
    simpl.
  - destruct Hm as (-> & -> & H1 & H2).
    { intros key Hkey. apply Hkeys, elem_of_app. by left. }
    destruct e2 as [e|]; [reflexivity|].
    assert (outcome (decodeFields decode in1' fl rest fullName)
            = outcome (decodeFields decode in2' fl rest fullName)) as Hl.
    { apply IH; [done|]. intros key Hkey. rewrite H1, H2.
      apply Hkeys, elem_of_app. by right. }
    unfold outcome in Hl |- *.
    destruct (decodeFields decode in1' fl rest fullName) as [[[a1 r1] x1]|];
      destruct (decodeFields decode in2' fl rest fullName) as [[[a2 r2] x2]|];
      simpl in Hl |- *; congruence.
  - destruct Hm. intros key Hkey. apply Hkeys, elem_of_app. by left.
  - destruct Hm. intros key Hkey. apply Hkeys, elem_of_app. by left.
  - rewrite Hm; [reflexivity|].
    intros key Hkey. apply Hkeys, elem_of_app. by left.
Qed.

Lemma decode_query_local (v : Value) :
  forall in1 in2 fl fullName,
    queryOnly v = true ->
    (forall key, key ∈ queryNames v fullName ->
       firstValue (queryTable in1) key = firstValue (queryTable in2) key) ->
    outcome (decode in1 fl v fullName) = outcome (decode in2 fl v fullName).
Proof.
  induction v as [b|k n|k n|k bits|s|isNil elem _|fields IH|k] using Value_nested_ind;
    intros in1 in2 fl fullName Hq Hkeys; try discriminate.
  pose proof (decodeFields_query_local fields IH in1 in2 fl fullName Hq Hkeys) as Hl.
  unfold outcome in Hl |- *. simpl decode.
  destruct (decodeFields decode in1 fl fields fullName) as [[[a1 r1] x1]|];
    destruct (decodeFields decode in2 fl fields fullName) as [[[a2 r2] x2]|];
    simpl in Hl |- *; congruence.
Qed.

(** X13: of the query, the walk over a record with query annotations only
    reads the first value under each dotted name of the record and nothing
    else: two requests whose query tables agree there give the same
    destination and the same error, or the same panic. *)
Theorem walk_reads_named_keys req1 req2 fields :
  queryOnly (VStruct fields) = true ->
  (forall key, key ∈ queryNames (VStruct fields) [] ->
     firstValue (URL_Query req1) key = firstValue (URL_Query req2) key) ->
  outcome (decode (mkDecodeIn req1 None []) flagRW (VStruct fields) [])
  = outcome (decode (mkDecodeIn req2 None []) flagRW (VStruct fields) []).
Proof. intros Hq Hkeys. by apply decode_query_local. Qed.

End Decoder.

(** ** Worked examples *)

(** An annotation that is present with an empty value does not win: for
    query:"" path:"id" the path annotation is taken. *)
Lemma empty_query_annotation_passed_over :
  let t := exported "ID" [("query", ""); ("path", "id")] in
  firstPresent t annotations = Some ("", tagTypeQuery)
  /\ findInTag t = (stringBytes "id", tagTypePath, true).
Proof. split; reflexivity. Qed.

(** A header-annotated int member pre-set to 7 keeps it when the header is
    missing, and Unmarshal returns the error of parsing the empty string. *)
Lemma missing_header_keeps_integer :
  let dest := VPtr false (VStruct
    [(exported "Limit" [("header", "X-Limit")], VInt KInt 7)]) in
  Unmarshal canonicalNames noFloat sameFloat emptyObject defaultPathLookuper (GET []) dest
  = Return (GET [], dest, Some (InvalidNumber (mkNumError "ParseInt" "" ErrSyntax))).
Proof. reflexivity. Qed.

(** A member of an unsupported shape, here a slice annotated query:"tags",
    does not fail the walk when the query has no such key. *)
Lemma absent_unsupported_member_no_error :
  let dest := VPtr false (VStruct
    [(exported "Tags" [("query", "tags")], VOther reflect.Slice)]) in
  coercible (VOther reflect.Slice) = false
  /\ Unmarshal canonicalNames noFloat sameFloat emptyObject defaultPathLookuper
       (GET []) dest
     = Return (GET [], dest, None).
Proof. split; reflexivity. Qed.


(** "300" parses as a 64-bit number, does not fit an int8 or a uint8, and is
    stored in either without an error and without a panic; no text that
    parses makes setting an integer member panic. *)
Lemma narrow_integer_no_panic :
  ParseInt "300" = (300, None)
  /\ ~ (-128 <= 300 <= 127)
  /\ setField noFloat sameFloat flagRW (VInt KInt8 0) "300" = Return (VInt KInt8 44, None)
  /\ ParseUint "300" = (300, None)
  /\ ~ (0 <= 300 <= 255)
  /\ setField noFloat sameFloat flagRW (VUint KUint8 0) "300" = Return (VUint KUint8 44, None)
  /\ ~ (exists raw k old n p,
          ParseInt raw = (n, None)
          /\ setField noFloat sameFloat flagRW (VInt k old) raw = Panics p).
Proof.
  repeat split; try reflexivity; try lia.
  intros (raw & k & old & n & p & Hparse & Hpanic).
  rewrite (setField_int_ok noFloat sameFloat k old raw n Hparse) in Hpanic. discriminate.
Qed.

(** ** The theorems at concrete inputs *)

Lemma Unmarshal_json_gate_witness :
  let req := mkRequest {["Content-Type" := ["application/json; charset=utf-8"]]} ∅ []
               (Unread "{}") in
  let dest := VPtr false (VStruct []) in
  Unmarshal canonicalNames noFloat sameFloat emptyObject defaultPathLookuper req dest
  = walkDestination canonicalNames noFloat sameFloat defaultPathLookuper req dest.
Proof.
  intros req dest.
  pose proof (Unmarshal_json_gate canonicalNames noFloat sameFloat emptyObject
                defaultPathLookuper req dest) as H.
  cbv zeta in H. destruct H as (_ & _ & H & _). apply H.
  vm_compute. reflexivity.
Defined.

Lemma findInTag_priority_witness :
  let t := exported "Host" [("json", "host")] in
  let in_ := mkDecodeIn (GET []) None [] in
  decodeMember canonicalNames noFloat sameFloat defaultPathLookuper
    (decode canonicalNames noFloat sameFloat defaultPathLookuper)
    in_ flagRW t (VString "localhost") []
  = Return (in_, VString "localhost", None, []).
Proof.
  intros t in_.
  destruct (findInTag_priority canonicalNames noFloat sameFloat defaultPathLookuper t)
    as (_ & Hskip & Hjson).
  apply Hskip. apply (Hjson "host"). reflexivity.
Defined.

Lemma header_always_present_witness :
  let in_ := mkDecodeIn (GET []) None [] in
  decodeMember canonicalNames noFloat sameFloat defaultPathLookuper
    (decode canonicalNames noFloat sameFloat defaultPathLookuper)
    in_ flagRW (exported "Agent" [("header", "User-Agent")]) (VString "curl") []
  = Return (in_, VString "", None, []).
Proof.
  intros in_.
  destruct (header_always_present canonicalNames noFloat sameFloat defaultPathLookuper
              in_ (stringBytes "User-Agent")) as (_ & _ & _ & H).
  destruct (H (decode canonicalNames noFloat sameFloat defaultPathLookuper) flagRW
              (exported "Agent" [("header", "User-Agent")]) []) as (Hstring & _).
  - reflexivity.
  - reflexivity.
  - apply Hstring. reflexivity.
Defined.

Lemma first_error_aborts_witness :
  let req := GET [("a", ["30"]); ("b", ["abc"])] in
  Unmarshal canonicalNames noFloat sameFloat emptyObject defaultPathLookuper req
    (VPtr false (VStruct [(exported "A" [("query", "a")], VInt KInt 0);
                          (exported "B" [("query", "b")], VInt KInt 0)]))
  = Return (req,
            VPtr false (VStruct [(exported "A" [("query", "a")], VInt KInt 30);
                                 (exported "B" [("query", "b")], VInt KInt 0)]),
            Some (InvalidNumber (mkNumError "ParseInt" "abc" ErrSyntax))).
Proof.
  intros req.
  destruct (first_error_aborts canonicalNames noFloat sameFloat emptyObject
              defaultPathLookuper) as (_ & _ & H & _).
  apply (H req _ (mkDecodeIn req (Some (URL_Query req)) [])).
  - vm_compute. discriminate.
  - vm_compute. reflexivity.
Defined.

Lemma unsupported_member_fails_witness :
  let req := GET [("tags", ["a"])] in
  let in_ := mkDecodeIn req None [] in
  let in' := mkDecodeIn req (Some (URL_Query req)) [] in
  let Tags := exported "Tags" [("query", "tags")] in
  let tags := unexported "tags" [("query", "tags")] in
  let walk := decodeFields canonicalNames noFloat sameFloat defaultPathLookuper
                (decode canonicalNames noFloat sameFloat defaultPathLookuper) in
  walk in_ flagRW [(Tags, VPtr true (VOther reflect.Slice))] []
    = Return (in', [(Tags, VPtr false (VOther reflect.Slice))],
              Some (UnsupportedType reflect.Slice))
  /\ walk in_ flagRW [(tags, VOther reflect.Slice)] []
    = Return (in', [(tags, VOther reflect.Slice)],
              Some (UnsupportedType reflect.Slice))
  /\ walk in_ flagRW [(tags, VPtr true (VOther reflect.Slice))] []
    = Panics PanicNotAssignable.
Proof.
  intros req in_ in' Tags tags walk.
  destruct (unsupported_member_fails canonicalNames noFloat sameFloat defaultPathLookuper)
    as (Herr & Hpanic & _).
  split; [|split].
  - apply (Herr _ in_ flagRW [] Tags (VPtr true (VOther reflect.Slice)) [] []
             (stringBytes "tags") tagTypeQuery in_ [] in' "a");
      try reflexivity.
    simpl. discriminate.
  - apply (Herr _ in_ flagRW [] tags (VOther reflect.Slice) [] []
             (stringBytes "tags") tagTypeQuery in_ [] in' "a");
      try reflexivity.
    simpl. discriminate.
  - apply (Hpanic _ in_ flagRW [] tags (VPtr true (VOther reflect.Slice)) [] []
             (stringBytes "tags") tagTypeQuery in_ [] in' "a");
      try reflexivity.
    simpl. discriminate.
Defined.

Lemma absent_member_untouched_witness :
  let in_ := mkDecodeIn (GET []) None [] in
  let field := exported "Session" [("cookie", "session")] in
  decodeMember canonicalNames noFloat sameFloat defaultPathLookuper
    (decode canonicalNames noFloat sameFloat defaultPathLookuper)
    in_ flagRW field (VPtr true (VString "")) []
  = Return (in_, VPtr true (VString ""), None, []).
Proof.
  intros in_ field.
  destruct (absent_member_untouched canonicalNames noFloat sameFloat defaultPathLookuper)
    as (H & _).
  apply (H _ in_ flagRW field (VPtr true (VString "")) [] (stringBytes "session")
           tagTypeCookie in_ "").
  - reflexivity.
  - simpl. discriminate.
  - reflexivity.
Defined.

Lemma name_path_mirrors_stack_witness :
  let req := GET [("name.first", ["John"]); ("name.last", ["Doe"])] in
  walkDestination canonicalNames noFloat sameFloat defaultPathLookuper req
    (VPtr false (VStruct
       [(exported "Name" [("query", "name")], VStruct
          [(exported "First" [("query", "first")], VString "");
           (exported "Last" [("query", "last")], VString "")])]))
  = Return (req, VPtr false (VStruct
       [(exported "Name" [("query", "name")], VStruct
          [(exported "First" [("query", "first")], VString "John");
           (exported "Last" [("query", "last")], VString "Doe")])]), None).
Proof.
  intros req.
  destruct (name_path_mirrors_stack canonicalNames noFloat sameFloat defaultPathLookuper)
    as (_ & _ & H).
  apply H. reflexivity.
Defined.

Lemma setField_integer_converts_witness :
  setField noFloat sameFloat flagRW (VInt KInt8 0) "300"
  = Return (VInt KInt8 (wrapSigned 8 300), None).
Proof.
  destruct (setField_integer_converts noFloat sameFloat "300" 0) as (H & _).
  apply (H KInt8 300). reflexivity.
Defined.


(** ** Accepted annotations *)

(** X1: when findInTag accepts a member, the name it returns is not empty,
    it is the value of the annotation it names, and the kind of annotation
    is one of the four, never none. *)
Theorem findInTag_accepts_named (t : StructField) (name : bytes) (ty : tagType) :
  findInTag t = (name, ty, true) ->
  name <> []
  /\ ty <> tagTypeNone
  /\ exists key tag,
       (key, ty) ∈ annotations
       /\ Tag_Lookup (Tag t) key = Some tag
       /\ name = stringBytes tag.
Proof.
  unfold findInTag.
  destruct (nonEmptyTag t "query") as [tag|] eqn:Hq;
    [|destruct (nonEmptyTag t "path") as [tag|] eqn:Hp;
      [|destruct (nonEmptyTag t "header") as [tag|] eqn:Hh;
        [|destruct (nonEmptyTag t "cookie") as [tag|] eqn:Hc; [|discriminate]]]];
    intros [= <- <-];
    match goal with
    | H : nonEmptyTag t ?key = Some tag |- _ =>
        apply nonEmptyTag_Some in H as [Hlook Hne];
        (split; [intros Hnil; by apply stringBytes_nil in Hnil|]);
        (split; [discriminate|]);
        exists key, tag; (split; [unfold annotations; set_solver|done])
    end.
Qed.

(** ** The default path lookuper *)

(** X12: with the default path lookuper in place, a record whose accepted
    annotations are all path annotations on members that are not structs is
    returned by the loop as it was, without an error, whatever the request:
    no path member is ever filled. *)
Theorem default_lookuper_fills_nothing canonical parseFloat float32 rec in_ fl fields
    fullName :
  Forall (fun member =>
            (findInTag member.1).2 = false
            \/ ((findInTag member.1).1.2 = tagTypePath
                /\ Kind_of member.2 <> reflect.Struct)) fields ->
  decodeFields canonical parseFloat float32 defaultPathLookuper rec in_ fl fields fullName
  = Return (in_, fields, None).
Proof.
  induction 1 as [|[field fv] rest Hm _ IH]; [reflexivity|].
  rewrite decodeFields_cons. simpl in Hm.
  destruct (findInTag field) as [[name ty] ok] eqn:Hf. simpl in Hm.
  assert (decodeMember canonical parseFloat float32 defaultPathLookuper rec in_ fl
            field fv fullName = Return (in_, fv, None, fullName)) as ->.
  { destruct Hm as [->|[-> Hk]].
    - by apply decodeMember_untagged with (name := name) (ty := ty).
    - destruct ok; [|by apply decodeMember_untagged with (name := name) (ty := tagTypePath)].
      by rewrite (decodeMember_scalar canonical parseFloat float32 defaultPathLookuper
                    rec in_ fl field fv fullName name tagTypePath Hf Hk). }
  simpl. rewrite IH. reflexivity.
Qed.

(** ** The generator and the decoder *)

(** Induction over types, with the members of a struct as premises. *)
Lemma GoType_nested_ind (P : GoType -> Prop) :
  (forall name, P (TBool name)) ->
  (forall name k, P (TInt name k)) ->
  (forall name k, P (TUint name k)) ->
  (forall name k, P (TFloat name k)) ->
  (forall name, P (TString name)) ->
  (forall name elem, P elem -> P (TPtr name elem)) ->
  (forall name elem, P elem -> P (TSlice name elem)) ->
  (forall name elem, P elem -> P (TArray name elem)) ->
  (forall name key elem, P key -> P elem -> P (TMap name key elem)) ->
  (forall name fields, Forall (fun member => P member.2) fields -> P (TStruct name fields)) ->
  (forall name k, P (TOther name k)) ->
  forall t, P t.
Proof.
  intros HBool HInt HUint HFloat HString HPtr HSlice HArray HMap HStruct HOther.
  fix IH 1. intros [name|name k|name k|name k|name|name elem|name elem|name elem
                   |name key elem|name fields|name k].
  - apply HBool.
  - apply HInt.
  - apply HUint.
  - apply HFloat.
  - apply HString.
  - apply HPtr, IH.
  - apply HSlice, IH.
  - apply HArray, IH.
  - apply HMap; apply IH.
  - apply HStruct. induction fields as [|[field ft] fields IHfields].
    + constructor.
    + constructor; [apply IH|exact IHfields].
  - apply HOther.
Qed.

Lemma stringBytes_app (s1 s2 : string) :
  stringBytes (s1 +:+ s2) = stringBytes s1 ++ stringBytes s2.
Proof. unfold stringBytes. induction s1 as [|c s1 IH]; simpl; [done|]. by rewrite IH. Qed.

Lemma bytesString_stringBytes (s : string) : bytesString (stringBytes s) = s.
Proof. apply string_of_list_ascii_of_string. Qed.

Lemma Tag_Get_query (field : StructField) :
  Tag_Get (Tag field) "query"
  = match nonEmptyTag field "query" with Some tag => tag | None => "" end.
Proof.
  unfold Tag_Get, nonEmptyTag. destruct (Tag_Lookup (Tag field) "query") as [tag|]; [|done].
  simpl. by destruct (bool_decide_reflect (tag = "")).
Qed.

(** The name the decoder forms in its buffer is the name the generator
    forms from its prefix. *)
Lemma bufferOf_name (prefix tag : string) :
  bytesString (bufferOf prefix ++ stringBytes tag)
  = if bool_decide (prefix = "") then tag else prefix +:+ "." +:+ tag.
Proof.
  unfold bufferOf. destruct (bool_decide (prefix = "")); simpl.
  - apply bytesString_stringBytes.
  - rewrite <- (bytesString_stringBytes (prefix +:+ "." +:+ tag)).
    f_equal. rewrite stringBytes_app, <- app_assoc. reflexivity.
Qed.

Lemma bufferOf_push (prefix tag : string) :
  tag <> "" ->
  appendWithDelimiter (bufferOf prefix) (stringBytes tag)
  = bufferOf (if bool_decide (prefix = "") then tag else prefix +:+ "." +:+ tag).
Proof.
  intros Htag. unfold appendWithDelimiter, bufferOf at 1.
  destruct (bool_decide_reflect (prefix = "")) as [->|Hp]; simpl.
  - unfold bufferOf. by rewrite bool_decide_eq_false_2.
  - unfold bufferOf. rewrite bool_decide_eq_false_2 by (by destruct prefix).
    rewrite !stringBytes_app, <- !app_assoc. reflexivity.
Qed.

Lemma documented_names (t : GoType) :
  forall prefix,
    documentable t = true ->
    map Parameter_Name (extractQueryParameters t prefix)
    = queryNames (zero t) (bufferOf prefix).
Proof.
  induction t as [name|name k|name k|name k|name|name elem _|name elem _|name elem _
                 |name key elem _ _|name fields IH|name k] using GoType_nested_ind;
    intros prefix Hdoc; try discriminate.
  induction IH as [|[field ft] rest Hft _ IHrest]; [reflexivity|].
  simpl in Hft.
  change (documentable (TStruct name ((field, ft) :: rest)))
    with (match findInTag field with
          | (_, tagTypeQuery, true) =>
              IsExported field
              && match ft with
                 | TStruct _ _ => documentable ft
                 | TPtr _ (TStruct _ _) => false
                 | TOther _ k => negb (bool_decide (k = reflect.Struct))
                 | _ => true
                 end
          | (_, _, true) => false
          | _ => true
          end && documentable (TStruct name rest)) in Hdoc.
  apply andb_true_iff in Hdoc as [Hmember Hrest].
  specialize (IHrest Hrest).
  change (extractQueryParameters (TStruct name ((field, ft) :: rest)) prefix)
    with ((if negb (IsExported field) then []
           else
             let queryTag := Tag_Get (Tag field) "query" in
             if bool_decide (queryTag = "") then []
             else
               let paramName :=
                 if bool_decide (prefix = "") then queryTag
                 else prefix +:+ "." +:+ queryTag in
               match ft with
               | TStruct _ _ | TPtr _ (TStruct _ _) => extractQueryParameters ft paramName
               | _ =>
                   [mkParameter paramName "query" (isFieldRequired field ft)
                      (generateSchemaForPrimitive ft)]
               end) ++ extractQueryParameters (TStruct name rest) prefix).
  change (queryNames (zero (TStruct name ((field, ft) :: rest))) (bufferOf prefix))
    with (match findInTag field with
          | (name', _, true) =>
              if bool_decide (Kind_of (zero ft) = reflect.Struct)
              then queryNames (zero ft) (appendWithDelimiter (bufferOf prefix) name')
              else [bytesString (bufferOf prefix ++ name')]
          | _ => []
          end ++ queryNames (zero (TStruct name rest)) (bufferOf prefix)).
  rewrite map_app, IHrest. f_equal.
  rewrite Tag_Get_query. unfold findInTag in *.
  destruct (nonEmptyTag field "query") as [tag|] eqn:Hq.
  - apply andb_true_iff in Hmember as [-> Hft']. simpl negb. cbv iota.
    apply nonEmptyTag_Some in Hq as [_ Hne].
    rewrite bool_decide_eq_false_2 by done. cbv zeta.
    destruct ft as [n|n k|n k|n k|n|n elem|n elem|n elem|n key elem|n fs|n k].
    1-9, 11: rewrite (bool_decide_eq_false_2 (Kind_of _ = reflect.Struct));
      [|simpl; try destruct k; try done;
        by apply negb_true_iff, bool_decide_eq_false in Hft'].
    1-5, 7-10: simpl; by rewrite bufferOf_name.
    + destruct elem; try discriminate; simpl; by rewrite bufferOf_name.
    + rewrite (bool_decide_eq_true_2 (Kind_of _ = reflect.Struct)) by done.
      rewrite bufferOf_push by done. by apply Hft.
  - rewrite bool_decide_eq_true_2 by done.
    destruct (IsExported field); simpl;
      repeat (destruct (nonEmptyTag field _); try discriminate); reflexivity.
Qed.

(** X14: for a request type whose accepted annotations are query annotations
    on exported members, none of them a pointer to a struct, the names of the
    parameters the generator documents are, in the same order, the dotted
    names under which the decoder looks up the members of a fresh value of
    that type. *)
Theorem documented_names_are_decoded_names (name : string)
    (fields : list (StructField * GoType)) :
  documentable (TStruct name fields) = true ->
  map Parameter_Name (extractQueryParameters (TStruct name fields) "")
  = queryNames (zero (TStruct name fields)) [].
Proof. intros Hdoc. by apply (documented_names (TStruct name fields) ""). Qed.

(** X15: what the generator documents as integer, number or boolean is what
    the decoder coerces as a signed integer, a float or a boolean: the
    schema of a query parameter is one of the four types string, integer,
    number, boolean, and a member documented with one of the last three
    holds, pointers followed, a value of that kind. *)
Theorem documented_type_is_decoded_kind (ft : GoType) :
  let documented := Schema_Type (generateSchemaForPrimitive ft) in
  documented ∈ ["string"; "integer"; "number"; "boolean"]
  /\ (documented = "integer" -> exists k, pointee (zero ft) = VInt k 0)
  /\ (documented = "number" -> exists k, pointee (zero ft) = VFloat k 0)
  /\ (documented = "boolean" -> pointee (zero ft) = VBool false)
  /\ (documented <> "string" -> coercible (zero ft) = true).
Proof.
  unfold coercible. cbv zeta.
  assert (forall A (x : A) (xs : list A), x ∈ x :: xs) as Hhead by (intros; left).
  destruct ft as [n|n k|n k|n k|n|n elem|n elem|n elem|n key elem|n fs|n k];
    [..|destruct elem as [n'|n' k'|n' k'|n' k'|n'|n' elem|n' elem|n' elem|n' key elem
                         |n' fs|n' k']| | | | |];
    simpl;
    (split; [set_solver|]);
    repeat split; intros H; try discriminate H; eauto;
    try (exfalso; apply H; reflexivity).
Qed.

(** ** The schema registries *)

(** The body of [generateSchema], which is what it does on a pointer to the
    type. *)
Lemma generateSchema_struct g name fields :
  generateSchema g (TStruct name fields) =
    let typeName := getTypeName (TStruct name fields) in
    if negb (bool_decide (typeName = "")) && bool_decide (is_Some (schemas g !! typeName))
    then (g, refSchema typeName)
    else
      let '(g, properties, required) :=
        generateProperties generateSchema g fields ∅ [] in
      let schema := mkSchema "object" (Some properties) None required "" false in
      if negb (bool_decide (typeName = "")) then
        (mkRegistry (<[typeName := schema]> (schemas g))
                    (<[typeName := schema]> (components_Schemas g)),
         refSchema typeName)
      else (g, schema).
Proof. reflexivity. Qed.

Lemma generateSchema_pointer g n name fields :
  generateSchema g (TPtr n (TStruct name fields)) = generateSchema g (TStruct name fields).
Proof. reflexivity. Qed.

Lemma getTypeName_named (t : GoType) : Type_Name t <> "" -> getTypeName t = Type_Name t.
Proof. intros H. destruct t; simpl in *; by rewrite bool_decide_eq_false_2. Qed.

(** X16: for a struct type that has a name and does not refer to itself,
    directly or through the types of its members, or for a pointer to one:
    the schema is a reference to that name, the name is registered when the
    call returns, and asking again for the schema of the type gives the same
    reference and leaves the registries as they are. The name is registered
    only after the loop over the members (lines 600-654), so on a named
    struct that refers to itself the source does not return; [GoType] has no
    such type, and the statement is about the types it has. *)
Theorem named_struct_registered g t name fields g1 s :
  t = TStruct name fields \/ (exists n, t = TPtr n (TStruct name fields)) ->
  name <> "" ->
  generateSchema g t = (g1, s) ->
  s = refSchema name
  /\ is_Some (schemas g1 !! name)
  /\ generateSchema g1 t = (g1, s).
Proof.
  intros Ht Hname.
  assert (generateSchema g t = generateSchema g (TStruct name fields)) as ->.
  { by destruct Ht as [->|[n ->]]. }
  assert (generateSchema g1 t = generateSchema g1 (TStruct name fields)) as ->.
  { by destruct Ht as [->|[n ->]]. }
  rewrite !generateSchema_struct.
  rewrite (getTypeName_named (TStruct name fields)) by done. simpl Type_Name. cbv zeta.
  rewrite (bool_decide_eq_false_2 (name = "")) by done. simpl negb. cbv iota.
  destruct (bool_decide_reflect (is_Some (schemas g !! name))) as [Hin|Hin]; simpl.
  - intros [= <- <-]. rewrite bool_decide_eq_true_2 by done. done.
  - destruct (generateProperties generateSchema g fields ∅ []) as [[g' props] req].
    intros [= <- <-]. simpl.
    rewrite bool_decide_eq_true_2 by (rewrite lookup_insert_eq; eauto).
    split; [done|]. split; [|done]. rewrite lookup_insert_eq. eauto.
Qed.

Section RegistryInvariant.

Variable I : Registry -> Prop.
Hypothesis insert_keeps : forall g name s,
  I g -> I (mkRegistry (<[name := s]> (schemas g)) (<[name := s]> (components_Schemas g))).

Lemma generateProperties_keeps rec fields :
  Forall (fun member => forall g, I g -> I (rec g member.2).1) fields ->
  forall g properties required,
    I g -> I (generateProperties rec g fields properties required).1.1.
Proof.
  induction 1 as [|[field ft] rest Hft _ IH]; intros g properties required HI; [done|].
  simpl in Hft. simpl.
  destruct (negb (IsExported field)); [by apply IH|].
  destruct (jsonMember field ft) as [[fieldName skip] isRequired].
  destruct skip; [by apply IH|].
  specialize (Hft g HI). destruct (rec g ft) as [g' fieldSchema]. by apply IH.
Qed.

Lemma generateSchema_keeps (t : GoType) :
  (forall n g, I g -> I (generateSchema g (TPtr n t)).1)
  /\ (forall g, I g -> I (generateSchema g t).1).
Proof.
  induction t as [name|name k|name k|name k|name|name elem IH|name elem IH|name elem IH
                 |name key elem _ IH|name fields IH|name k] using GoType_nested_ind.
  1-5, 7-11: match goal with
             | |- _ /\ ?R =>
                 assert R as Hbody; [|split; [intros ?; exact Hbody|exact Hbody]]
             end.
  all: try (intros g HI; simpl;
            destruct (negb _ && bool_decide (is_Some (schemas g !! _))); done).
  - intros g HI. simpl.
    destruct (negb _ && bool_decide (is_Some (schemas g !! _))); [done|].
    destruct IH as [_ IH]. specialize (IH g HI).
    by destruct (generateSchema g elem).
  - intros g HI. simpl.
    destruct (negb _ && bool_decide (is_Some (schemas g !! _))); [done|].
    destruct IH as [_ IH]. specialize (IH g HI).
    by destruct (generateSchema g elem).
  - intros g HI. rewrite generateSchema_struct. cbv zeta.
    destruct (negb _ && bool_decide (is_Some (schemas g !! _))); [done|].
    pose proof (generateProperties_keeps generateSchema fields) as Hloop.
    specialize (Hloop (Forall_impl _ _ _ IH (fun member H => proj2 H)) g ∅ [] HI).
    destruct (generateProperties generateSchema g fields ∅ []) as [[g' props] req].
    simpl in Hloop. destruct (negb _); [by apply insert_keeps|done].
  - split.
    + intros n g HI. simpl.
      destruct (negb _ && bool_decide (is_Some (schemas g !! _))); done.
    + intros g HI. destruct IH as [IH _]. apply (IH name g HI).
Qed.

End RegistryInvariant.

(** X17: generateSchema keeps its two registries in step and only adds to
    them: when the generator's own registry and the one of the components
    hold the same schemas before a call they do so after it, and every name
    registered before the call is registered after it. *)
Theorem registries_grow_together g t g1 s :
  generateSchema g t = (g1, s) ->
  (schemas g = components_Schemas g -> schemas g1 = components_Schemas g1)
  /\ (forall name, is_Some (schemas g !! name) -> is_Some (schemas g1 !! name)).
Proof.
  intros Hgen. split.
  - intros Hsync.
    pose proof (proj2 (generateSchema_keeps
                         (fun g' => schemas g' = components_Schemas g')
                         (fun g' name s' H => ltac:(simpl; by rewrite H)) t) g Hsync) as H.
    by rewrite Hgen in H.
  - intros name Hin.
    pose proof (proj2 (generateSchema_keeps
                         (fun g' => is_Some (schemas g' !! name))
                         (fun g' name' s' H => ltac:(
                            simpl; destruct (decide (name' = name)) as [->|Hne];
                            [rewrite lookup_insert_eq; eauto
                            |by rewrite lookup_insert_ne])) t) g Hin) as H.
    by rewrite Hgen in H.
Qed.

(** ** Registering handlers *)

Lemma operationOf_zero (m : string) :
  operationOf (mkPathItem None None None None None) m = None.
Proof. unfold operationOf. by repeat destruct (bool_decide _). Qed.

(** One registration under one of the five methods. *)
Lemma RegisterHandler_slot ToUpper g info m :
  ToUpper (HandlerInfo_Method info) = m ->
  m ∈ methods ->
  let g' := Generator_RegisterHandler ToUpper g info in
  let before :=
    default (mkPathItem None None None None None) (Paths g !! HandlerInfo_Path info) in
  exists item,
    Paths g' !! HandlerInfo_Path info = Some item
    /\ operationOf item m = Some (buildOperation (registry g) info).2
    /\ (forall m', m' <> m -> operationOf item m' = operationOf before m')
    /\ (forall path, path <> HandlerInfo_Path info -> Paths g' !! path = Paths g !! path)
    /\ registry g' = (buildOperation (registry g) info).1.
Proof.
  intros Hm Hin. unfold Generator_RegisterHandler. rewrite Hm.
  destruct (buildOperation (registry g) info) as [reg op]. cbv zeta. simpl.
  unfold methods in Hin.
  repeat (apply elem_of_cons in Hin as [->|Hin]); [..|by apply elem_of_nil in Hin].
  all: eexists; split; [apply lookup_insert_eq|].
  all: split; [reflexivity|].
  all: split; [|split; [intros path Hp; by apply lookup_insert_ne|reflexivity]].
  all: intros m' Hm'; unfold operationOf; simpl.
  all: repeat case_bool_decide; simplify_eq; done.
Qed.

(** X18: a registration under GET, POST, PUT, DELETE or PATCH, in any
    letter case that ToUpper brings to one of them, puts the operation it
    builds under that method of the path and leaves the other methods of the
    path and all other paths as they were; so two registrations for one path
    under different methods are both documented, under the same method the
    later one replaces the earlier, and a registration under any other
    method changes no operation of the path. *)
Theorem registrations_share_a_path ToUpper g info1 info2 m1 m2 :
  ToUpper (HandlerInfo_Method info1) = m1 ->
  ToUpper (HandlerInfo_Method info2) = m2 ->
  m1 ∈ methods ->
  HandlerInfo_Path info1 = HandlerInfo_Path info2 ->
  let g1 := Generator_RegisterHandler ToUpper g info1 in
  let g2 := Generator_RegisterHandler ToUpper g1 info2 in
  let op1 := (buildOperation (registry g) info1).2 in
  let op2 := (buildOperation (registry g1) info2).2 in
  exists item1 item2,
    Paths g1 !! HandlerInfo_Path info1 = Some item1
    /\ Paths g2 !! HandlerInfo_Path info1 = Some item2
    /\ operationOf item1 m1 = Some op1
    /\ (m2 ∈ methods -> operationOf item2 m2 = Some op2)
    /\ (m2 <> m1 -> operationOf item2 m1 = Some op1)
    /\ (m2 ∉ methods -> forall m, operationOf item2 m = operationOf item1 m)
    /\ (forall path, path <> HandlerInfo_Path info1 -> Paths g2 !! path = Paths g !! path).
Proof.
  intros Hm1 Hm2 Hin1 Hpath g1 g2 op1 op2.
  destruct (RegisterHandler_slot ToUpper g info1 m1 Hm1 Hin1)
    as (item1 & Hitem1 & Hop1 & Hframe1 & Hother1 & _).
  fold g1 in Hitem1, Hother1.
  destruct (decide (m2 ∈ methods)) as [Hin2|Hin2].
  - destruct (RegisterHandler_slot ToUpper g1 info2 m2 Hm2 Hin2)
      as (item2 & Hitem2 & Hop2 & Hframe2 & Hother2 & _).
    fold g2 in Hitem2, Hother2. rewrite <- Hpath in Hitem2, Hframe2, Hother2.
    rewrite Hitem1 in Hframe2. simpl in Hframe2.
    exists item1, item2. repeat split; try done.
    + intros Hne. rewrite Hframe2 by done. exact Hop1.
    + intros path Hp. rewrite Hother2, Hother1 by done. reflexivity.
  - exists item1, item1.
    assert (Paths g2 = <[HandlerInfo_Path info1 := item1]> (Paths g1)) as Hsame.
    { unfold g2, Generator_RegisterHandler. rewrite Hm2, <- Hpath, Hitem1.
      destruct (buildOperation (registry g1) info2) as [reg op]. simpl.
      unfold methods in Hin2. rewrite !not_elem_of_cons in Hin2.
      destruct Hin2 as (? & ? & ? & ? & ? & _).
      rewrite !bool_decide_eq_false_2 by done. reflexivity. }
    rewrite Hsame. repeat split; try done.
    + apply lookup_insert_eq.
    + intros path Hp. rewrite lookup_insert_ne by done. by apply Hother1.
Qed.

(** ** The further theorems at concrete inputs *)

Lemma findInTag_accepts_named_witness :
  stringBytes "id" <> []
  /\ tagTypePath <> tagTypeNone
  /\ exists key tag,
       (key, tagTypePath) ∈ annotations
       /\ Tag_Lookup [("json", "id"); ("path", "id")] key = Some tag
       /\ stringBytes "id" = stringBytes tag.
Proof.
  apply (findInTag_accepts_named (exported "ID" [("json", "id"); ("path", "id")])).
  reflexivity.
Defined.

Lemma getValue_cache_transparent_witness :
  let in_ := mkDecodeIn (GET [("age", ["30"; "31"])]) None [] in
  ("30", true) = resolve canonicalNames defaultPathLookuper (r in_) "age" tagTypeQuery
  /\ r (mkDecodeIn (r in_) (Some (URL_Query (r in_))) []) = r in_
  /\ coherent (mkDecodeIn (r in_) (Some (URL_Query (r in_))) []).
Proof.
  intros in_.
  apply (getValue_cache_transparent canonicalNames defaultPathLookuper in_
           (stringBytes "age") tagTypeQuery).
  - split; [by left|constructor].
  - reflexivity.
Defined.

Lemma cookie_cache_stable_witness :
  let req := mkRequest ∅ ∅ [mkCookie "session" "abc"] (Unread "") in
  let in' := mkDecodeIn req None [mkCookie "session" "abc"] in
  getValue canonicalNames defaultPathLookuper in' (stringBytes "session") tagTypeCookie
  = (in', "abc", true).
Proof.
  intros req in'.
  destruct (cookie_cache_stable canonicalNames defaultPathLookuper
              (mkDecodeIn req None []) (stringBytes "session") in' "abc") as (H & _).
  apply H. reflexivity.
Defined.

Lemma decode_keeps_context_witness :
  let req := mkRequest ∅ ∅ [mkCookie "session" "abc"] (Unread "") in
  let in' := mkDecodeIn req None [mkCookie "session" "abc"] in
  r in' = req /\ (coherent (mkDecodeIn req None []) -> coherent in').
Proof.
  intros req in'.
  apply (decode_keeps_context canonicalNames noFloat sameFloat defaultPathLookuper
           (VStruct [(exported "Session" [("cookie", "session")], VString "")])
           (mkDecodeIn req None []) flagRW []
           in' (VStruct [(exported "Session" [("cookie", "session")], VString "abc")])
           None).
  reflexivity.
Defined.


Lemma walk_error_kinds_witness :
  let age := VStruct [(exported "Age" [("query", "age")], VInt KInt 0)] in
  let req := GET [("age", ["abc"])] in
  let run := Unmarshal canonicalNames noFloat sameFloat emptyObject defaultPathLookuper in
  isWalkError (InvalidNumber (mkNumError "ParseInt" "abc" ErrSyntax)) = true
  /\ run req age = Return (req, age, Some InvalidDestination)
  /\ run req (VPtr true age) = Return (req, VPtr true age, Some InvalidDestination)
  /\ (InvalidNumber (mkNumError "ParseInt" "abc" ErrSyntax) = InvalidDestination
       <-> nonNilPointer (VPtr false age) = false).
Proof.
  intros age req run.
  destruct (walk_error_kinds canonicalNames noFloat sameFloat emptyObject
              defaultPathLookuper) as (Hwalk & Hinvalid & Honly).
  split; [|split; [|split]].
  - apply (Hwalk age (mkDecodeIn req None []) flagRW []
             (mkDecodeIn req (Some (URL_Query req)) []) age).
    reflexivity.
  - apply (Hinvalid req age); [vm_compute; discriminate|reflexivity].
  - apply (Hinvalid req (VPtr true age)); [vm_compute; discriminate|reflexivity].
  - apply (Honly req (VPtr false age) req (VPtr false age));
      [vm_compute; discriminate|reflexivity].
Defined.

Lemma exported_destination_no_panic_witness :
  let req := GET [("age", ["abc"])] in
  exists dest' err,
    Unmarshal canonicalNames noFloat sameFloat emptyObject defaultPathLookuper req
      (VPtr false (VStruct [(exported "Age" [("query", "age")], VPtr true (VInt KInt 0))]))
    = Return (req, dest', err).
Proof.
  intros req.
  apply (exported_destination_no_panic canonicalNames noFloat sameFloat emptyObject
           defaultPathLookuper).
  - vm_compute. discriminate.
  - reflexivity.
Defined.

Lemma setField_failure_allocates_witness :
  let v := VPtr true (VInt KInt 0) in
  VPtr false (VInt KInt 0) = allocated v
  /\ pointee (VPtr false (VInt KInt 0)) = pointee v
  /\ (forall elem, v = VPtr true elem -> exists elem', VPtr false (VInt KInt 0) = VPtr false elem').
Proof.
  intros v.
  apply (setField_failure_allocates noFloat sameFloat flagRW v "abc" _
           (InvalidNumber (mkNumError "ParseInt" "abc" ErrSyntax))).
  reflexivity.
Defined.

Lemma setField_integer_exact_witness :
  setField noFloat sameFloat flagRW (VInt KInt8 0) "-128" = Return (VInt KInt8 (-128), None).
Proof.
  destruct (setField_integer_exact noFloat sameFloat "-128" 0) as (H & _).
  apply (H KInt8 (-128)); [reflexivity|]. simpl. lia.
Defined.

Lemma walk_again_witness :
  let req := GET [("a", ["30"]); ("b", ["abc"])] in
  let dest' := VPtr false (VStruct [(exported "A" [("query", "a")], VInt KInt 30);
                                    (exported "B" [("query", "b")], VPtr false (VInt KInt 0))]) in
  walkDestination canonicalNames noFloat sameFloat defaultPathLookuper req dest'
  = Return (req, dest', Some (InvalidNumber (mkNumError "ParseInt" "abc" ErrSyntax))).
Proof.
  intros req dest'.
  apply (walk_again canonicalNames noFloat sameFloat defaultPathLookuper req
           (VPtr false (VStruct [(exported "A" [("query", "a")], VInt KInt 0);
                                 (exported "B" [("query", "b")], VPtr true (VInt KInt 0))]))).
  reflexivity.
Defined.

Lemma unexported_member_panics_witness :
  let req := GET [("name", ["x"])] in
  decodeFields canonicalNames noFloat sameFloat defaultPathLookuper
    (decode canonicalNames noFloat sameFloat defaultPathLookuper)
    (mkDecodeIn req None []) flagRW
    [(unexported "name" [("query", "name")], VString "")] []
  = Panics PanicNotAssignable.
Proof.
  intros req.
  apply (unexported_member_panics canonicalNames noFloat sameFloat defaultPathLookuper
           _ (mkDecodeIn req None []) flagRW [] (unexported "name" [("query", "name")])
           (VString "") [] [] (stringBytes "name") tagTypeQuery
           (mkDecodeIn req None []) [] (mkDecodeIn req (Some (URL_Query req)) []) "x").
  - reflexivity.
  - reflexivity.
  - left. by exists "".
  - reflexivity.
  - reflexivity.
Defined.

Lemma default_lookuper_fills_nothing_witness :
  let fields := [(exported "ID" [("path", "id")], VInt KInt 0)] in
  let in_ := mkDecodeIn (GET []) None [] in
  decodeFields canonicalNames noFloat sameFloat defaultPathLookuper
    (decode canonicalNames noFloat sameFloat defaultPathLookuper) in_ flagRW fields []
  = Return (in_, fields, None).
Proof.
  intros fields in_.
  apply default_lookuper_fills_nothing.
  constructor; [|constructor]. right. split; [reflexivity|]. simpl. discriminate.
Defined.

Lemma walk_reads_named_keys_witness :
  let fields := [(exported "Age" [("query", "age")], VInt KInt 0)] in
  outcome (decode canonicalNames noFloat sameFloat defaultPathLookuper
             (mkDecodeIn (GET [("age", ["30"])]) None []) flagRW (VStruct fields) [])
  = outcome (decode canonicalNames noFloat sameFloat defaultPathLookuper
               (mkDecodeIn (GET [("age", ["30"; "31"]); ("page", ["2"])]) None [])
               flagRW (VStruct fields) []).
Proof.
  intros fields.
  apply (walk_reads_named_keys canonicalNames noFloat sameFloat defaultPathLookuper).
  - reflexivity.
  - intros key Hkey. change (key ∈ ["age"]) in Hkey.
    apply list_elem_of_singleton in Hkey as ->. reflexivity.
Defined.

Lemma documented_names_are_decoded_names_witness :
  let fullName := TStruct "fullName"
    [(exported "First" [("query", "first")], TString "string");
     (exported "Middle" [("query", "middle")], TPtr "" (TString "string"))] in
  let fields := [(exported "Name" [("query", "name")], fullName);
                 (exported "Age" [("query", "age")], TInt "int" KInt);
                 (exported "Host" [("json", "host")], TString "string")] in
  map Parameter_Name (extractQueryParameters (TStruct "input" fields) "")
  = ["name.first"; "name.middle"; "age"].
Proof.
  intros fullName fields.
  rewrite (documented_names_are_decoded_names "input" fields); reflexivity.
Defined.

Lemma documented_type_is_decoded_kind_witness :
  exists k, pointee (zero (TPtr "" (TInt "int" KInt))) = VInt k 0.
Proof.
  destruct (documented_type_is_decoded_kind (TPtr "" (TInt "int" KInt))) as (_ & H & _).
  apply H. reflexivity.
Defined.

Lemma named_struct_registered_witness :
  let user := TStruct "User" [(exported "Name" [("json", "name")], TString "string")] in
  let g1 := (generateSchema (mkRegistry ∅ ∅) (TPtr "" user)).1 in
  refSchema "User" = refSchema "User"
  /\ is_Some (schemas g1 !! "User")
  /\ generateSchema g1 (TPtr "" user) = (g1, refSchema "User").
Proof.
  intros user g1.
  apply (named_struct_registered (mkRegistry ∅ ∅) (TPtr "" user) "User"
           [(exported "Name" [("json", "name")], TString "string")]).
  - right. by exists "".
  - discriminate.
  - reflexivity.
Defined.

Lemma registries_grow_together_witness :
  let user := TStruct "User" [(exported "Name" [("json", "name")], TString "string")] in
  let g1 := (generateSchema (mkRegistry ∅ ∅) (TSlice "" user)).1 in
  (schemas (mkRegistry ∅ ∅) = components_Schemas (mkRegistry ∅ ∅) ->
   schemas g1 = components_Schemas g1)
  /\ (forall name, is_Some (schemas (mkRegistry ∅ ∅) !! name) -> is_Some (schemas g1 !! name)).
Proof.
  intros user g1.
  apply (registries_grow_together (mkRegistry ∅ ∅) (TSlice "" user) g1
           (generateSchema (mkRegistry ∅ ∅) (TSlice "" user)).2).
  reflexivity.
Defined.

Lemma registrations_share_a_path_witness :
  let upper := fun method : string =>
    if bool_decide (method = "get") then "GET"
    else if bool_decide (method = "post") then "POST" else method in
  let info1 := mkHandlerInfo "get /echo" "/echo" "get" None None [] "" "" in
  let info2 := mkHandlerInfo "post /echo" "/echo" "post" None None [] "" "" in
  let g1 := Generator_RegisterHandler upper NewGenerator info1 in
  let g2 := Generator_RegisterHandler upper g1 info2 in
  exists item1 item2,
    Paths g1 !! "/echo" = Some item1
    /\ Paths g2 !! "/echo" = Some item2
    /\ operationOf item1 "GET" = Some (buildOperation (registry NewGenerator) info1).2
    /\ ("POST" ∈ methods ->
        operationOf item2 "POST" = Some (buildOperation (registry g1) info2).2)
    /\ ("POST" <> "GET" ->
        operationOf item2 "GET" = Some (buildOperation (registry NewGenerator) info1).2)
    /\ ("POST" ∉ methods -> forall m, operationOf item2 m = operationOf item1 m)
    /\ (forall path, path <> "/echo" -> Paths g2 !! path = Paths NewGenerator !! path).
Proof.
  intros upper info1 info2 g1 g2.
  apply (registrations_share_a_path upper NewGenerator info1 info2 "GET" "POST").
  - reflexivity.
  - reflexivity.
  - left.
  - reflexivity.
Defined.
